(** * CS20 Allegro pool game: the physics core

    A shallow embedding of [Ball] (Ball.h, Ball.cpp) and of the
    [physics] namespace (physics.cpp), with the properties of the
    collision, boundary and stepping code.

    Number models.  The C++ code computes on [double].  The main
    embedding reads a [double] as a real number ([R]): rounding is not
    modelled, and a statement about it is a statement about the exact
    arithmetic the code spells out.  A division whose divisor is zero
    has no real value (in C++ it yields an infinity or a NaN); it is
    modelled by [fdiv], which returns [None], and every function that
    divides is a function into [option].

    The module [B64] embeds the functions whose branches depend on
    rounding a second time, on IEEE-754 binary64 numbers (Rocq's
    primitive floats, every operation rounded to nearest as in C++).
    It evaluates the code on concrete doubles, and shows where the
    exact reading and the code part.

    Storage model.  The balls live in one [std::vector<Ball>]; a
    [Ball&] is an index into it, and two references denote the same
    object exactly when the indices are equal. *)

From Stdlib Require Import Reals Lra Lia ZArith Zfloor.
From Stdlib Require Floats Uint63.
From stdpp Require Import base decidable option list.

#[local] Open Scope R_scope.

(** ** Comparisons and division on [double] *)

#[global] Instance Rlt_decision (a b : R) : Decision (a < b) := Rlt_dec a b.
#[global] Instance Rle_decision (a b : R) : Decision (a <= b) := Rle_dec a b.
#[global] Instance Rgt_decision (a b : R) : Decision (a > b) := Rgt_dec a b.
#[global] Instance Req_decision : EqDecision R := Req_dec_T.

(** [a / b] on doubles; [None] when the divisor is zero. *)
Definition fdiv (a b : R) : option R :=
  if decide (b = 0) then None else Some (a / b).

(** Modelled from the spec: [calculateHypotenuse] (utilities.h, absent)
    is the Euclidean length of the vector [(a, b)]. *)
Definition calculateHypotenuse (a b : R) : R := sqrt (a * a + b * b).

(** Modelled from the spec: [dotProduct] (utilities.h, absent), called
    as [dotProduct(normalX, deltaVelocityX, normalY, deltaVelocityY)],
    is the dot product of [(x1, y1)] and [(x2, y2)]. *)
Definition dotProduct (x1 x2 y1 y2 : R) : R := x1 * x2 + y1 * y2.

(** Modelled from the spec: [calcPythagoreanHyp] (utils.h, absent), which
    Ball.cpp compares to the stopping threshold, is the length of the
    hypotenuse over the two velocity components, the ball's speed. *)
Definition calcPythagoreanHyp (a b : R) : R := sqrt (a * a + b * b).

(** ** The ball entity *)

Inductive BallType : Type :=
  | undetermined | solid | striped | eight | cue.

#[global] Instance BallType_eq_dec : EqDecision BallType.
Proof. solve_decision. Defined.

(** The six [double] members are those of Ball.h.  Modelled from the
    spec: the visibility flag, the ball type and the ball number, which
    physics.cpp reads through [isVisible], [getBallType] and
    [getBallNumber] (their declarations are absent). *)
Record Ball : Type := mkBall {
  m_xPosition : R;
  m_yPosition : R;
  m_xVelocity : R;
  m_yVelocity : R;
  m_radius : R;
  m_mass : R;
  m_visible : bool;
  m_ballType : BallType;
  m_ballNumber : Z
}.

Module Ball.

Definition getX (b : Ball) : R := m_xPosition b.
Definition getY (b : Ball) : R := m_yPosition b.
Definition getVX (b : Ball) : R := m_xVelocity b.
Definition getVY (b : Ball) : R := m_yVelocity b.
Definition getRadius (b : Ball) : R := m_radius b.
Definition getMass (b : Ball) : R := m_mass b.
Definition isVisible (b : Ball) : bool := m_visible b.
Definition getBallType (b : Ball) : BallType := m_ballType b.
Definition getBallNumber (b : Ball) : Z := m_ballNumber b.

Definition setPosition (xPos yPos : R) (b : Ball) : Ball :=
  mkBall xPos yPos (m_xVelocity b) (m_yVelocity b) (m_radius b) (m_mass b)
         (m_visible b) (m_ballType b) (m_ballNumber b).

Definition addPosition (xPos yPos : R) (b : Ball) : Ball :=
  mkBall (m_xPosition b + xPos) (m_yPosition b + yPos)
         (m_xVelocity b) (m_yVelocity b) (m_radius b) (m_mass b)
         (m_visible b) (m_ballType b) (m_ballNumber b).

(** Modelled from the spec: [subPosition] is declared in Ball.h (the
    subtracting twin of [addPosition]); its body is absent. *)
Definition subPosition (xPos yPos : R) (b : Ball) : Ball :=
  mkBall (m_xPosition b - xPos) (m_yPosition b - yPos)
         (m_xVelocity b) (m_yVelocity b) (m_radius b) (m_mass b)
         (m_visible b) (m_ballType b) (m_ballNumber b).

Definition setVelocity (xVel yVel : R) (b : Ball) : Ball :=
  mkBall (m_xPosition b) (m_yPosition b) xVel yVel (m_radius b) (m_mass b)
         (m_visible b) (m_ballType b) (m_ballNumber b).

Definition addVelocity (xVel yVel : R) (b : Ball) : Ball :=
  mkBall (m_xPosition b) (m_yPosition b)
         (m_xVelocity b + xVel) (m_yVelocity b + yVel)
         (m_radius b) (m_mass b)
         (m_visible b) (m_ballType b) (m_ballNumber b).

(** Modelled from the spec: [subVelocity] is declared in Ball.h (the
    subtracting twin of [addVelocity]); its body is absent. *)
Definition subVelocity (xVel yVel : R) (b : Ball) : Ball :=
  mkBall (m_xPosition b) (m_yPosition b)
         (m_xVelocity b - xVel) (m_yVelocity b - yVel)
         (m_radius b) (m_mass b)
         (m_visible b) (m_ballType b) (m_ballNumber b).

Definition setRadius (radius : R) (b : Ball) : Ball :=
  if decide (radius > 0)
  then mkBall (m_xPosition b) (m_yPosition b) (m_xVelocity b) (m_yVelocity b)
              radius (m_mass b)
              (m_visible b) (m_ballType b) (m_ballNumber b)
  else b.

(** Modelled from the spec: [setVisible] (declaration absent) stores
    the visibility flag. *)
Definition setVisible (v : bool) (b : Ball) : Ball :=
  mkBall (m_xPosition b) (m_yPosition b) (m_xVelocity b) (m_yVelocity b)
         (m_radius b) (m_mass b) v (m_ballType b) (m_ballNumber b).

(** [this->isOverlappingBall(otherBall)]; [this_] and [other] are the
    addresses of the two objects, [b] and [otherBall] their
    contents. *)
Definition isOverlappingBall (this_ other : nat) (b otherBall : Ball) : bool :=
  if decide (other = this_) then false
  else
    let radiusLength := m_radius b + getRadius otherBall in
    let deltaX := m_xPosition b - m_xPosition otherBall in
    let deltaY := m_yPosition b - m_yPosition otherBall in
    bool_decide (deltaX * deltaX + deltaY * deltaY <= radiusLength * radiusLength).

(** Modelled from the spec: [applyFriction] (declaration absent)
    decays the velocity by the rolling friction and snaps it to zero
    once the speed is below the stopping threshold; this is the
    velocity part of [movementStep] of Ball.cpp. *)
Definition applyFriction (friction stopVelocity : R) (b : Ball) : Ball :=
  if decide (calculateHypotenuse (m_xVelocity b) (m_yVelocity b) < stopVelocity)
  then setVelocity 0 0 b
  else setVelocity (m_xVelocity b - m_xVelocity b * friction)
                   (m_yVelocity b - m_yVelocity b * friction) b.

(** [wallCollisionStep] of Ball.cpp; the four bounds are [int]s, converted
    to [double] where they meet one. *)
Definition wallCollisionStep (startX startY endX endY : Z) (b : Ball) : Ball :=
  (* check for boundaries in x-axis *)
  let b :=
    if decide (m_xPosition b - m_radius b < IZR startX) then
      setVelocity (m_xVelocity b * -1) (m_yVelocity b)
        (setPosition (m_xPosition b + (IZR startX - (m_xPosition b - m_radius b)))
                     (m_yPosition b) b)
    else if decide (m_xPosition b + m_radius b > IZR endX) then
      setVelocity (m_xVelocity b * -1) (m_yVelocity b)
        (setPosition (m_xPosition b - (m_xPosition b + m_radius b - IZR endX))
                     (m_yPosition b) b)
    else b in
  (* check for boundaries in y-axis *)
  if decide (m_yPosition b - m_radius b < IZR startY) then
    setVelocity (m_xVelocity b) (m_yVelocity b * -1)
      (setPosition (m_xPosition b)
                   (m_yPosition b + (IZR startY - (m_yPosition b - m_radius b))) b)
  else if decide (m_yPosition b + m_radius b > IZR endY) then
    setVelocity (m_xVelocity b) (m_yVelocity b * -1)
      (setPosition (m_xPosition b)
                   (m_yPosition b - (m_yPosition b + m_radius b - IZR endY)) b)
  else b.

(** [movementStep] of Ball.cpp. *)
Definition movementStep (friction stopVelocity : R) (b : Ball) : Ball :=
  (* stop ball completely if the net velocity is near zero *)
  if decide (calcPythagoreanHyp (m_xVelocity b) (m_yVelocity b) < stopVelocity)
  then setVelocity 0 0 b
  else
    (* simulate friction slowing *)
    let b := setVelocity (m_xVelocity b - m_xVelocity b * friction)
                         (m_yVelocity b - m_yVelocity b * friction) b in
    (* actually move ball forward *)
    setPosition (m_xPosition b + m_xVelocity b) (m_yPosition b + m_yVelocity b) b.

Section Update.

(** The constants of constants.h (absent) that [update] passes on; the
    last four reach [wallCollisionStep] as [int]s. *)
Variable frictionCoefficient : R.
Variable stoppingVelocity : R.
Variable playSurfaceX : Z.
Variable playSurfaceY : Z.
Variable screenWidth : Z.
Variable screenHeight : Z.

(** [update] of Ball.cpp: wrapper to call stuff. *)
Definition update (b : Ball) : Ball :=
  wallCollisionStep playSurfaceX playSurfaceY
                    (screenWidth - playSurfaceX) (screenHeight - playSurfaceY)
    (movementStep frictionCoefficient stoppingVelocity b).

End Update.

End Ball.

(** ** Players, the turn record and the world *)

Record Player : Type := mkPlayer { m_targetBallType : BallType }.

Module Player.
Definition getTargetBallType (p : Player) : BallType := m_targetBallType p.
Definition setTargetBallType (t : BallType) (_ : Player) : Player := mkPlayer t.
End Player.

(** [pocketedBalls] holds [Ball*] pointers into the ball vector: indices. *)
Record TurnInformation : Type := mkTurn {
  firstHitBallType : BallType;
  pocketedBalls : list nat;
  turnPlayerIndex : Z
}.

(** Modelled from the spec: [Rectangle] (declaration absent) is the
    play surface, min and max of x and of y. *)
Record Rectangle : Type := mkRectangle {
  xPos1 : R;
  yPos1 : R;
  xPos2 : R;
  yPos2 : R
}.

Record World : Type := mkWorld {
  gameBalls : list Ball;
  gamePlayers : list Player;
  turnInfo : TurnInformation
}.

(** [v[z]] for an [int] index: outside [0, size) the access is
    undefined, here [None]. *)
Definition vectorAt {A : Type} (v : list A) (z : Z) : option A :=
  if decide (0 <= z)%Z then v !! Z.to_nat z else None.

(** ** The physics namespace *)

Module physics.

Section Physics.

(** The constants of constants.h (absent): [consts::collisionFriction],
    [consts::rollingFriction], [consts::stoppingVelocity] and
    [consts::playSurface]. *)
Variable collisionFriction : R.
Variable rollingFriction : R.
Variable stoppingVelocity : R.
Variable playSurface : Rectangle.

(** Modelled from the spec: [Ball::isInPocket] (declaration absent)
    tells whether the ball lies inside a pocket region; the pocket
    regions are configuration. *)
Variable isInPocket : Ball -> bool.

Definition resolveCircleCollisionPosition (ball1 ball2 : Ball)
  : option (Ball * Ball) :=
  let ballDistance :=
    calculateHypotenuse (Ball.getX ball1 - Ball.getX ball2)
                        (Ball.getY ball1 - Ball.getY ball2) in
  let ballOverlap :=
    (ballDistance - Ball.getRadius ball1 - Ball.getRadius ball2) / 2 in
  moveDistanceX ← fdiv (ballOverlap * (Ball.getX ball1 - Ball.getX ball2)) ballDistance;
  moveDistanceY ← fdiv (ballOverlap * (Ball.getY ball1 - Ball.getY ball2)) ballDistance;
  Some (Ball.subPosition moveDistanceX moveDistanceY ball1,
        Ball.addPosition moveDistanceX moveDistanceY ball2).

Definition resolveCircleCollisionVelocity (ball1 ball2 : Ball)
  : option (Ball * Ball) :=
  let ballDistance :=
    calculateHypotenuse (Ball.getX ball1 - Ball.getX ball2)
                        (Ball.getY ball1 - Ball.getY ball2) in
  normalX ← fdiv (Ball.getX ball2 - Ball.getX ball1) ballDistance;
  normalY ← fdiv (Ball.getY ball2 - Ball.getY ball1) ballDistance;
  let deltaVelocityX := Ball.getVX ball1 - Ball.getVX ball2 in
  let deltaVelocityY := Ball.getVY ball1 - Ball.getVY ball2 in
  p ← fdiv (2 * dotProduct normalX deltaVelocityX normalY deltaVelocityY)
           (Ball.getMass ball1 + Ball.getMass ball2);
  let newVelocityX := p * normalX * collisionFriction in
  let newVelocityY := p * normalY * collisionFriction in
  Some (Ball.subVelocity (newVelocityX * Ball.getMass ball2)
                         (newVelocityY * Ball.getMass ball2) ball1,
        Ball.addVelocity (newVelocityX * Ball.getMass ball1)
                         (newVelocityY * Ball.getMass ball1) ball2).

Definition resolveCircleBoundaryCollision (ball : Ball) (boundary : Rectangle)
  : Ball :=
  (* check for boundaries in x-axis *)
  let '(xPositionAdjustment, ball) :=
    if decide (Ball.getX ball - Ball.getRadius ball < xPos1 boundary) then
      (xPos1 boundary - (Ball.getX ball - Ball.getRadius ball),
       Ball.setVelocity (- Ball.getVX ball * collisionFriction) (Ball.getVY ball) ball)
    else if decide (Ball.getX ball + Ball.getRadius ball > xPos2 boundary) then
      (- (Ball.getX ball + Ball.getRadius ball - xPos2 boundary),
       Ball.setVelocity (- Ball.getVX ball * collisionFriction) (Ball.getVY ball) ball)
    else (0, ball) in
  (* check for boundaries in y-axis *)
  let '(yPositionAdjustment, ball) :=
    if decide (Ball.getY ball - Ball.getRadius ball < yPos1 boundary) then
      (yPos1 boundary - (Ball.getY ball - Ball.getRadius ball),
       Ball.setVelocity (Ball.getVX ball) (- Ball.getVY ball * collisionFriction) ball)
    else if decide (Ball.getY ball + Ball.getRadius ball > yPos2 boundary) then
      (- (Ball.getY ball + Ball.getRadius ball - yPos2 boundary),
       Ball.setVelocity (Ball.getVX ball) (- Ball.getVY ball * collisionFriction) ball)
    else (0, ball) in
  if decide (xPositionAdjustment <> 0 \/ yPositionAdjustment <> 0)
  then Ball.addPosition xPositionAdjustment yPositionAdjustment ball
  else ball.

(** *** stepPhysics *)

(** The state the sub-step loop works on: the ball vector and the
    turn record. *)
Definition Table : Type := (list Ball * TurnInformation)%type.

(** One iteration of [for (Ball& checkTarget : gameBalls)] for the
    moving ball [i] and the target [j]; the [bool] is [hasCollided]. *)
Definition collideWith (i j : nat) (s : Table * bool) : option (Table * bool) :=
  let '(balls, turn, hasCollided) := s in
  ball ← balls !! i;
  checkTarget ← balls !! j;
  if Ball.isOverlappingBall i j ball checkTarget then
    '(ball, checkTarget) ← resolveCircleCollisionPosition ball checkTarget;
    '(ball, checkTarget) ← resolveCircleCollisionVelocity ball checkTarget;
    let turn :=
      if decide (firstHitBallType turn = undetermined) then
        (* assume that first collision always is cue ball + random ball *)
        mkTurn (if decide (Ball.getBallNumber ball = 0%Z)
                then Ball.getBallType checkTarget
                else Ball.getBallType ball)
               (pocketedBalls turn) (turnPlayerIndex turn)
      else turn in
    Some (<[j := checkTarget]> (<[i := ball]> balls), turn, true)
  else Some s.

(** The whole [for] loop over the targets [js]. *)
Fixpoint checkCollisions (i : nat) (js : list nat) (s : Table * bool)
  : option (Table * bool) :=
  match js with
  | [] => Some s
  | j :: js => s ← collideWith i j s; checkCollisions i js s
  end.

(** The body of the [while] loop: move the ball by one step, then
    scan every ball for overlap. *)
Definition subStep (i : nat) (stepSizeX stepSizeY : R) (s : Table * bool)
  : option (Table * bool) :=
  let '(balls, turn, hasCollided) := s in
  ball ← balls !! i;
  let balls := <[i := Ball.addPosition stepSizeX stepSizeY ball]> balls in
  checkCollisions i (seq 0 (length balls)) (balls, turn, hasCollided).

(** [while (stepsNeeded > 0.0 && !hasCollided) { ...; --stepsNeeded; }]:
    [stepsNeeded] holds a whole number, here the [nat] recursed on. *)
Fixpoint stepLoop (stepsNeeded : nat) (i : nat) (stepSizeX stepSizeY : R)
  (s : Table * bool) : option (Table * bool) :=
  match stepsNeeded with
  | O => Some s
  | S stepsNeeded =>
      if snd s then Some s
      else
        s ← subStep i stepSizeX stepSizeY s;
        stepLoop stepsNeeded i stepSizeX stepSizeY s
  end.

(** [std::ceil(velocitySum / ball.getRadius())]. *)
Definition stepsNeededOf (ball : Ball) : option Z :=
  let velocitySum := Rabs (Ball.getVX ball) + Rabs (Ball.getVY ball) in
  q ← fdiv velocitySum (Ball.getRadius ball);
  Some (Zceil q).

Definition stepSizeOf (ball : Ball) (stepsNeeded : Z) : option (R * R) :=
  stepSizeX ← fdiv (Ball.getVX ball) (IZR stepsNeeded);
  stepSizeY ← fdiv (Ball.getVY ball) (IZR stepsNeeded);
  Some (stepSizeX, stepSizeY).

(** Lines 220 to 232: the pocket test after the sub-step loop. *)
Definition pocketBall (i : nat) (w : World) : option World :=
  ball ← gameBalls w !! i;
  if isInPocket ball then
    let ball := Ball.setVisible false ball in
    let balls := <[i := ball]> (gameBalls w) in
    let turn := mkTurn (firstHitBallType (turnInfo w))
                       (pocketedBalls (turnInfo w) ++ [i])
                       (turnPlayerIndex (turnInfo w)) in
    let players := gamePlayers w in
    player ← vectorAt players (turnPlayerIndex turn);
    if decide (Player.getTargetBallType player = undetermined) then
      if decide (Ball.getBallType ball = solid \/ Ball.getBallType ball = striped) then
        let players :=
          <[Z.to_nat (turnPlayerIndex turn) :=
              Player.setTargetBallType (Ball.getBallType ball) player]> players in
        let other := ((turnPlayerIndex turn + 1) `mod` Z.of_nat (length players))%Z in
        opponent ← vectorAt players other;
        let players :=
          <[Z.to_nat other :=
              Player.setTargetBallType
                (if decide (Ball.getBallType ball = solid) then striped else solid)
                opponent]> players in
        Some (mkWorld balls players turn)
      else Some (mkWorld balls players turn)
    else Some (mkWorld balls players turn)
  else Some w.

(** The body of [for (Ball& ball : gameBalls)] for the ball [i]. *)
Definition stepBall (i : nat) (w : World) : option World :=
  ball ← gameBalls w !! i;
  if negb (Ball.isVisible ball) then Some w (* skip if not visible *)
  else
    stepsNeeded ← stepsNeededOf ball;
    if decide (IZR stepsNeeded > 0) then
      '(stepSizeX, stepSizeY) ← stepSizeOf ball stepsNeeded;
      '(balls, turn, _) ← stepLoop (Z.to_nat stepsNeeded) i stepSizeX stepSizeY
                                   (gameBalls w, turnInfo w, false);
      w ← pocketBall i (mkWorld balls (gamePlayers w) turn);
      ball ← gameBalls w !! i;
      let ball := Ball.applyFriction rollingFriction stoppingVelocity ball in
      let ball := resolveCircleBoundaryCollision ball playSurface in
      Some (mkWorld (<[i := ball]> (gameBalls w)) (gamePlayers w) (turnInfo w))
    else Some w.

Fixpoint stepBalls (todo : list nat) (w : World) : option World :=
  match todo with
  | [] => Some w
  | i :: todo => w ← stepBall i w; stepBalls todo w
  end.

Definition stepPhysics (w : World) : option World :=
  stepBalls (seq 0 (length (gameBalls w))) w.

(** *** The other functions of physics.cpp *)

(** Modelled from the spec: [Ball::isMoving] (declaration absent) tells
    whether the ball's velocity is above the stopping threshold. *)
Variable isMoving : Ball -> bool.

(** One iteration of the loop of [resolveCircleCollisions], for a
    [ball] that is the element [i] of [toBeChecked] (the reminder at the
    top of physics.cpp: every ball against every other ball). *)
Definition resolveWith (i j : nat) (s : list Ball * bool) : option (list Ball * bool) :=
  let '(toBeChecked, hasCollided) := s in
  ball ← toBeChecked !! i;
  checkTarget ← toBeChecked !! j;
  if Ball.isOverlappingBall i j ball checkTarget then
    '(ball, checkTarget) ← resolveCircleCollisionPosition ball checkTarget;
    '(ball, checkTarget) ← resolveCircleCollisionVelocity ball checkTarget;
    Some (<[j := checkTarget]> (<[i := ball]> toBeChecked), true)
  else Some s.

Fixpoint resolveAll (i : nat) (js : list nat) (s : list Ball * bool)
  : option (list Ball * bool) :=
  match js with
  | [] => Some s
  | j :: js => s ← resolveWith i j s; resolveAll i js s
  end.

(** returns true if a collision has happend *)
Definition resolveCircleCollisions (i : nat) (toBeChecked : list Ball)
  : option (list Ball * bool) :=
  resolveAll i (seq 0 (length toBeChecked)) (toBeChecked, false).

Fixpoint areBallsMoving (gameBalls : list Ball) : bool :=
  match gameBalls with
  | [] => false
  | ball :: gameBalls =>
      if Ball.isVisible ball && isMoving ball then true
      else areBallsMoving gameBalls
  end.

(** [handlePocketing]; the ball is passed by reference and comes back
    with the players.  [%] on [int]s is [Z.rem]. *)
Definition handlePocketing (ball : Ball) (gamePlayers : list Player) (playerIndex : Z)
  : option (Ball * list Player) :=
  if isInPocket ball then
    let ball := Ball.setVisible false ball in
    player ← vectorAt gamePlayers playerIndex;
    if decide (Player.getTargetBallType player = undetermined) then
      if decide (Ball.getBallType ball = solid \/ Ball.getBallType ball = striped) then
        let gamePlayers :=
          <[Z.to_nat playerIndex :=
              Player.setTargetBallType (Ball.getBallType ball) player]> gamePlayers in
        let other := Z.rem (playerIndex + 1) 2 in
        opponent ← vectorAt gamePlayers other;
        Some (ball,
              <[Z.to_nat other :=
                  Player.setTargetBallType
                    (if decide (Ball.getBallType ball = solid) then striped else solid)
                    opponent]> gamePlayers)
      else Some (ball, gamePlayers)
    else Some (ball, gamePlayers)
  else Some (ball, gamePlayers).

End Physics.

End physics.

(** ** The same functions on binary64 numbers *)

Module B64.

Import Stdlib.Floats.Floats.
#[local] Open Scope float_scope.

(** The six [double] members of Ball.h. *)
Record Ball : Type := mkBall {
  m_xPosition : float;
  m_yPosition : float;
  m_xVelocity : float;
  m_yVelocity : float;
  m_radius : float;
  m_mass : float
}.

(** Modelled from the spec: [Rectangle] (declaration absent), as in the
    exact embedding. *)
Record Rectangle : Type := mkRectangle {
  xPos1 : float;
  yPos1 : float;
  xPos2 : float;
  yPos2 : float
}.

(** Modelled from the spec: [calculateHypotenuse] (utilities.h, absent),
    the Euclidean length, computed as the square root of the sum of the
    squares.  On a vector whose second component is zero every correctly
    rounded implementation ([std::hypot] as well) returns the absolute
    value of the first. *)
Definition calculateHypotenuse (a b : float) : float := PrimFloat.sqrt (a * a + b * b).

(** [std::ceil]: the least whole number not below [x], read off the
    mantissa and exponent of [x]; the result is a binary64 number, so
    nothing is rounded.  Zeros, infinities and NaN are returned as they
    are. *)
Definition ceil (x : float) : float :=
  match Prim2SF x with
  | S754_finite s m e =>
      if (0 <=? e)%Z then x
      else
        let k := (2 ^ (- e))%Z in
        if s then - (of_uint63 (Uint63.of_Z (Z.pos m / k)))
        else of_uint63 (Uint63.of_Z ((Z.pos m + k - 1) / k))
  | _ => x
  end.

Definition getX (b : Ball) : float := m_xPosition b.
Definition getY (b : Ball) : float := m_yPosition b.
Definition getVX (b : Ball) : float := m_xVelocity b.
Definition getVY (b : Ball) : float := m_yVelocity b.
Definition getRadius (b : Ball) : float := m_radius b.

Definition addPosition (xPos yPos : float) (b : Ball) : Ball :=
  mkBall (m_xPosition b + xPos) (m_yPosition b + yPos)
         (m_xVelocity b) (m_yVelocity b) (m_radius b) (m_mass b).

(** Modelled from the spec: [subPosition], as in the exact embedding. *)
Definition subPosition (xPos yPos : float) (b : Ball) : Ball :=
  mkBall (m_xPosition b - xPos) (m_yPosition b - yPos)
         (m_xVelocity b) (m_yVelocity b) (m_radius b) (m_mass b).

Definition setVelocity (xVel yVel : float) (b : Ball) : Ball :=
  mkBall (m_xPosition b) (m_yPosition b) xVel yVel (m_radius b) (m_mass b).

Definition isOverlappingBall (this_ other : nat) (b otherBall : Ball) : bool :=
  if decide (other = this_) then false
  else
    let radiusLength := m_radius b + getRadius otherBall in
    let deltaX := m_xPosition b - m_xPosition otherBall in
    let deltaY := m_yPosition b - m_yPosition otherBall in
    (deltaX * deltaX + deltaY * deltaY <=? radiusLength * radiusLength).

Definition resolveCircleCollisionPosition (ball1 ball2 : Ball) : Ball * Ball :=
  let ballDistance :=
    calculateHypotenuse (getX ball1 - getX ball2) (getY ball1 - getY ball2) in
  let ballOverlap := (ballDistance - getRadius ball1 - getRadius ball2) / 2 in
  let moveDistanceX := ballOverlap * (getX ball1 - getX ball2) / ballDistance in
  let moveDistanceY := ballOverlap * (getY ball1 - getY ball2) / ballDistance in
  (subPosition moveDistanceX moveDistanceY ball1,
   addPosition moveDistanceX moveDistanceY ball2).

(** [std::ceil(velocitySum / ball.getRadius())]: the ceiling of the
    rounded quotient. *)
Definition stepsNeededOf (ball : Ball) : float :=
  let velocitySum := abs (getVX ball) + abs (getVY ball) in
  ceil (velocitySum / getRadius ball).

Definition stepSizeOf (ball : Ball) (stepsNeeded : float) : float * float :=
  (getVX ball / stepsNeeded, getVY ball / stepsNeeded).

Definition resolveCircleBoundaryCollision (collisionFriction : float)
  (ball : Ball) (boundary : Rectangle) : Ball :=
  (* check for boundaries in x-axis *)
  let '(xPositionAdjustment, ball) :=
    if getX ball - getRadius ball <? xPos1 boundary then
      (xPos1 boundary - (getX ball - getRadius ball),
       setVelocity (- getVX ball * collisionFriction) (getVY ball) ball)
    else if xPos2 boundary <? getX ball + getRadius ball then
      (- (getX ball + getRadius ball - xPos2 boundary),
       setVelocity (- getVX ball * collisionFriction) (getVY ball) ball)
    else (0, ball) in
  (* check for boundaries in y-axis *)
  let '(yPositionAdjustment, ball) :=
    if getY ball - getRadius ball <? yPos1 boundary then
      (yPos1 boundary - (getY ball - getRadius ball),
       setVelocity (getVX ball) (- getVY ball * collisionFriction) ball)
    else if yPos2 boundary <? getY ball + getRadius ball then
      (- (getY ball + getRadius ball - yPos2 boundary),
       setVelocity (getVX ball) (- getVY ball * collisionFriction) ball)
    else (0, ball) in
  if negb (xPositionAdjustment =? 0) || negb (yPositionAdjustment =? 0)
  then addPosition xPositionAdjustment yPositionAdjustment ball
  else ball.



(** The play surface (0,0)-(10,10), a ball of radius 1 that has crossed
    its left wall at x = -1.97, and the ball of the specification's
    scenario at (0.5, 5). *)
Definition surface : Rectangle := mkRectangle 0 0 10 10.
Definition atWall : Ball := mkBall (1 / 2) 5 (- 1) 0 1 1.

(** A restitution coefficient, and the numbers the statements below
    compare to. *)
Definition restitution : float := 9 / 10.

End B64.

(** * Properties *)

(** The center distance the resolvers compute. *)
Definition centerDistance (a b : Ball) : R :=
  calculateHypotenuse (Ball.getX a - Ball.getX b) (Ball.getY a - Ball.getY b).

(** The two centers are the same point. *)
Definition coincident (a b : Ball) : Prop :=
  Ball.getX a = Ball.getX b /\ Ball.getY a = Ball.getY b.

(** The members of a ball that motion and collisions never write. *)
Definition sameBall (b b' : Ball) : Prop :=
  m_radius b' = m_radius b /\ m_mass b' = m_mass b /\ m_visible b' = m_visible b
  /\ m_ballType b' = m_ballType b /\ m_ballNumber b' = m_ballNumber b.

Definition sameBalls (l l' : list Ball) : Prop := Forall2 sameBall l l'.

(** [subSteps cf i sx sy k t (t', hc)]: from the table [t], [k]
    sub-steps of the ball [i] were run one after the other, none but
    the last registered a collision, and the last one ended in [t'] with
    the flag [hc]. *)
Inductive subSteps (collisionFriction : R) (i : nat) (sx sy : R)
  : nat -> physics.Table -> physics.Table * bool -> Prop :=
  | subSteps_O (t : physics.Table) :
      subSteps collisionFriction i sx sy 0 t (t, false)
  | subSteps_S (k : nat) (t t1 : physics.Table) (r : physics.Table * bool) :
      subSteps collisionFriction i sx sy k t (t1, false) ->
      physics.subStep collisionFriction i sx sy (t1, false) = Some r ->
      subSteps collisionFriction i sx sy (S k) t r.

(** What the collision scan keeps: the shape of the ball vector, the
    pocketed balls and the acting player. *)
Definition tableKept (t t' : physics.Table) : Prop :=
  sameBalls (fst t) (fst t')
  /\ pocketedBalls (snd t') = pocketedBalls (snd t)
  /\ turnPlayerIndex (snd t') = turnPlayerIndex (snd t).

(** The players after a ball of type [t] went into a pocket on the turn
    of the player [idx], whose target was [target]. *)
Definition playersAfterPocket (players : list Player) (idx : Z)
  (target t : BallType) : list Player :=
  if decide (target = undetermined /\ (t = solid \/ t = striped)) then
    <[Z.to_nat ((idx + 1) `mod` Z.of_nat (length players)) :=
        mkPlayer (if decide (t = solid) then striped else solid)]>
      (<[Z.to_nat idx := mkPlayer t]> players)
  else players.

(** A test configuration: the play surface (0,0)-(10,10), a pocket
    region in its corner at the origin, two players without a target
    and a fresh turn of the first player. *)
Definition testSurface : Rectangle := mkRectangle 0 0 10 10.

Definition cornerPocket (b : Ball) : bool :=
  bool_decide (Ball.getX b <= 3 / 2 /\ Ball.getY b <= 3 / 2).

Definition testPlayers : list Player := [mkPlayer undetermined; mkPlayer undetermined].

Definition testTurn : TurnInformation := mkTurn undetermined [] 0.

(** A solid ball at rest inside the corner pocket region. *)
Definition restingBall : Ball := mkBall 1 1 0 0 1 1 true solid 1.

(** A solid ball that rolls into the corner pocket region in one step. *)
Definition rollingBall : Ball := mkBall 2 1 (- 1) 0 1 1 true solid 1.

(** Two equal balls of mass 1 and radius 1 whose centers are 1.9
    apart, moving towards each other. *)
Definition leftBall : Ball := mkBall 4 5 1 0 1 1 true cue 0.
Definition rightBall : Ball := mkBall (59 / 10) 5 (- 1) 0 1 1 true solid 1.

(** A ball of radius 2 with velocity (3, 4). *)
Definition fastBall : Ball := mkBall 5 5 3 4 2 1 true solid 1.


(** The cue ball with velocity (2, 0), two steps of length 1 away from
    resting against a solid ball after the first. *)
Definition strikerBall : Ball := mkBall 2 5 2 0 1 1 true cue 0.
Definition struckBall : Ball := mkBall 5 5 0 0 1 1 true solid 1.

(** A third ball, far from both. *)
Definition awayBall : Ball := mkBall 8 5 0 0 1 1 true striped 9.

(** The kinetic energy of a ball. *)
Definition kineticEnergy (b : Ball) : R :=
  Ball.getMass b * (Ball.getVX b * Ball.getVX b + Ball.getVY b * Ball.getVY b) / 2.

(** The ball lies inside the rectangle, edges included. *)
Definition insideRectangle (b : Ball) (rect : Rectangle) : Prop :=
  xPos1 rect <= Ball.getX b - Ball.getRadius b
  /\ Ball.getX b + Ball.getRadius b <= xPos2 rect
  /\ yPos1 rect <= Ball.getY b - Ball.getRadius b
  /\ Ball.getY b + Ball.getRadius b <= yPos2 rect.

(** The same for the [int] walls of [wallCollisionStep]. *)
Definition insideWalls (b : Ball) (startX startY endX endY : Z) : Prop :=
  insideRectangle b (mkRectangle (IZR startX) (IZR startY) (IZR endX) (IZR endY)).

(** What a tick keeps of a ball: everything but position, velocity and
    visibility, and an invisible ball stays invisible. *)
Definition keptBall (b b' : Ball) : Prop :=
  m_radius b' = m_radius b /\ m_mass b' = m_mass b
  /\ m_ballType b' = m_ballType b /\ m_ballNumber b' = m_ballNumber b
  /\ (m_visible b' = true -> m_visible b = true).

(** The ball [i] is visible in [w] and invisible in [w']. *)
Definition pocketedNow (w w' : World) (i : nat) : Prop :=
  exists b b', gameBalls w !! i = Some b /\ gameBalls w' !! i = Some b'
               /\ m_visible b = true /\ m_visible b' = false.

(** What a tick keeps of the world. *)
Definition tickKept (w w' : World) : Prop :=
  Forall2 keptBall (gameBalls w) (gameBalls w')
  /\ length (gamePlayers w') = length (gamePlayers w)
  /\ turnPlayerIndex (turnInfo w') = turnPlayerIndex (turnInfo w)
  /\ (firstHitBallType (turnInfo w) <> undetermined ->
      firstHitBallType (turnInfo w') = firstHitBallType (turnInfo w))
  /\ (forall p, vectorAt (gamePlayers w) (turnPlayerIndex (turnInfo w)) = Some p ->
                Player.getTargetBallType p <> undetermined ->
                gamePlayers w' = gamePlayers w)
  /\ exists l, pocketedBalls (turnInfo w') = pocketedBalls (turnInfo w) ++ l
               /\ NoDup l /\ forall i, i ∈ l <-> pocketedNow w w' i.

(** ** Arithmetic helpers *)

Lemma fdiv_Some (a b : R) : b <> 0 -> fdiv a b = Some (a / b).
Proof. intros Hb. unfold fdiv. destruct (decide (b = 0)); [contradiction | reflexivity]. Qed.

Lemma fdiv_zero (a : R) : fdiv a 0 = None.
Proof. unfold fdiv. destruct (decide (0 = 0)); [reflexivity | contradiction]. Qed.

Lemma fdiv_Some_inv (a b q : R) : fdiv a b = Some q -> b <> 0 /\ q = a / b.
Proof.
  unfold fdiv. destruct (decide (b = 0)); [discriminate|].
  intros [= <-]. auto.
Qed.

(** Case analysis on every guarded division of a successful computation. *)
Ltac fdiv_cases H :=
  repeat match type of H with
         | context [fdiv ?a ?b] =>
             destruct (fdiv a b); cbn in H; [|discriminate H]
         end.

Lemma calculateHypotenuse_sqr (a b : R) :
  calculateHypotenuse a b * calculateHypotenuse a b = a * a + b * b.
Proof. unfold calculateHypotenuse. apply sqrt_sqrt. nra. Qed.

Lemma calculateHypotenuse_nonneg (a b : R) : 0 <= calculateHypotenuse a b.
Proof. apply sqrt_pos. Qed.

Lemma calculateHypotenuse_zero_iff (a b : R) :
  calculateHypotenuse a b = 0 <-> a = 0 /\ b = 0.
Proof.
  split.
  - intros H. pose proof (calculateHypotenuse_sqr a b) as Hs.
    rewrite H in Hs. split; nra.
  - intros [-> ->]. unfold calculateHypotenuse.
    replace (0 * 0 + 0 * 0) with 0 by ring. apply sqrt_0.
Qed.

(** The length of a vector scaled by a non-negative factor. *)
Lemma calculateHypotenuse_scale (k a b : R) :
  0 <= k -> calculateHypotenuse (k * a) (k * b) = k * calculateHypotenuse a b.
Proof.
  intros Hk. unfold calculateHypotenuse.
  replace (k * a * (k * a) + k * b * (k * b)) with (k * k * (a * a + b * b)) by ring.
  rewrite sqrt_mult_alt by nra. rewrite sqrt_square by assumption. reflexivity.
Qed.



Lemma centerDistance_zero_iff (a b : Ball) :
  centerDistance a b = 0 <-> coincident a b.
Proof.
  unfold centerDistance, coincident. rewrite calculateHypotenuse_zero_iff.
  split; intros [H1 H2]; split; lra.
Qed.


(** ** The ball entity *)

(** The radius setter: a non-positive argument leaves the ball as it
    was, and the setter has no error result; a positive argument is
    stored.  ([setMass] is only declared in Ball.h; it has no body to
    embed.) *)
Lemma setRadius_rejects_non_positive (value : R) (b : Ball) :
  (value <= 0 -> Ball.setRadius value b = b)
  /\ (0 < value -> Ball.getRadius (Ball.setRadius value b) = value).
Proof.
  unfold Ball.setRadius, Ball.getRadius.
  split; intros Hv; destruct (decide (value > 0)) as [Hp|Hn];
    try (exfalso; lra); reflexivity.
Qed.

Lemma isOverlappingBall_true_iff (i j : nat) (a b : Ball) :
  Ball.isOverlappingBall i j a b = true <->
  j <> i /\
  centerDistance a b * centerDistance a b
  <= (Ball.getRadius a + Ball.getRadius b) * (Ball.getRadius a + Ball.getRadius b).
Proof.
  unfold centerDistance, Ball.isOverlappingBall, Ball.getRadius, Ball.getX, Ball.getY.
  rewrite calculateHypotenuse_sqr.
  destruct (decide (j = i)) as [->|Hne].
  - split; [discriminate | intros [H _]; contradiction].
  - rewrite bool_decide_eq_true. tauto.
Qed.

(** C9: [isOverlappingBall] is true exactly when the two references
    denote different ball objects and the squared center distance is at
    most the squared sum of the radii; it is false on the same object
    and true for balls that touch exactly. *)
Theorem isOverlappingBall_spec (i j : nat) (a b : Ball) :
  let d := centerDistance a b in
  let ra := Ball.getRadius a in
  let rb := Ball.getRadius b in
  (Ball.isOverlappingBall i j a b = true <-> j <> i /\ d * d <= (ra + rb) * (ra + rb))
  /\ Ball.isOverlappingBall i i a b = false
  /\ (j <> i -> d = ra + rb -> Ball.isOverlappingBall i j a b = true).
Proof.
  cbv zeta. split; [|split].
  - apply isOverlappingBall_true_iff.
  - destruct (Ball.isOverlappingBall i i a b) eqn:E; [|reflexivity].
    apply isOverlappingBall_true_iff in E as [E _]. contradiction.
  - intros Hne Hd. apply isOverlappingBall_true_iff. split; [assumption|].
    rewrite Hd. lra.
Qed.


(** ** Collision resolution *)

(** With centers that do not coincide, the position resolution has a
    result: each ball moved along the center axis, and the new center
    distance is the absolute value of the sum of the radii. *)
Lemma resolveCircleCollisionPosition_result (a b : Ball) :
  ~ coincident a b ->
  let d := centerDistance a b in
  let o := (d - Ball.getRadius a - Ball.getRadius b) / 2 in
  let mx := o * (Ball.getX a - Ball.getX b) / d in
  let my := o * (Ball.getY a - Ball.getY b) / d in
  physics.resolveCircleCollisionPosition a b
  = Some (Ball.subPosition mx my a, Ball.addPosition mx my b).
Proof.
  intros Hnc. cbv zeta. rewrite <- centerDistance_zero_iff in Hnc.
  unfold physics.resolveCircleCollisionPosition. fold (centerDistance a b).
  rewrite !fdiv_Some by assumption. reflexivity.
Qed.

Lemma separated_distance (a b : Ball) (d : R) :
  d = centerDistance a b -> d <> 0 ->
  let o := (d - Ball.getRadius a - Ball.getRadius b) / 2 in
  let mx := o * (Ball.getX a - Ball.getX b) / d in
  let my := o * (Ball.getY a - Ball.getY b) / d in
  centerDistance (Ball.subPosition mx my a) (Ball.addPosition mx my b)
  = Rabs (Ball.getRadius a + Ball.getRadius b).
Proof.
  intros Hd Hnz. cbv zeta.
  assert (Hsq : d * d = (Ball.getX a - Ball.getX b) * (Ball.getX a - Ball.getX b)
                        + (Ball.getY a - Ball.getY b) * (Ball.getY a - Ball.getY b)).
  { rewrite Hd. apply calculateHypotenuse_sqr. }
  unfold centerDistance at 1, calculateHypotenuse.
  unfold Ball.subPosition, Ball.addPosition, Ball.getX, Ball.getY, Ball.getRadius in *.
  cbn [m_xPosition m_yPosition m_radius].
  set (dx := m_xPosition a - m_xPosition b) in *.
  set (dy := m_yPosition a - m_yPosition b) in *.
  set (s := m_radius a + m_radius b).
  rewrite <- sqrt_Rsqr_abs. f_equal. unfold Rsqr.
  transitivity ((dx * dx + dy * dy) * (s * s) / (d * d)).
  - unfold dx, dy, s. field. assumption.
  - rewrite <- Hsq. field. assumption.
Qed.


Lemma resolveCircleCollisionPosition_coincident (a b : Ball) :
  coincident a b -> physics.resolveCircleCollisionPosition a b = None.
Proof.
  intros Hc. apply centerDistance_zero_iff in Hc.
  unfold physics.resolveCircleCollisionPosition. fold (centerDistance a b).
  rewrite Hc, !fdiv_zero. reflexivity.
Qed.

Lemma resolveCircleCollisionVelocity_coincident (cf : R) (a b : Ball) :
  coincident a b -> physics.resolveCircleCollisionVelocity cf a b = None.
Proof.
  intros Hc. apply centerDistance_zero_iff in Hc.
  unfold physics.resolveCircleCollisionVelocity. fold (centerDistance a b).
  rewrite Hc, !fdiv_zero. reflexivity.
Qed.

(** With centers that do not coincide and a non-zero total mass, the
    velocity resolution has a result: the impulse along the normal. *)
Lemma resolveCircleCollisionVelocity_result (cf : R) (a b : Ball) :
  ~ coincident a b ->
  Ball.getMass a + Ball.getMass b <> 0 ->
  let d := centerDistance a b in
  let nx := (Ball.getX b - Ball.getX a) / d in
  let ny := (Ball.getY b - Ball.getY a) / d in
  let p := 2 * dotProduct nx (Ball.getVX a - Ball.getVX b) ny (Ball.getVY a - Ball.getVY b)
           / (Ball.getMass a + Ball.getMass b) in
  physics.resolveCircleCollisionVelocity cf a b
  = Some (Ball.subVelocity (p * nx * cf * Ball.getMass b) (p * ny * cf * Ball.getMass b) a,
          Ball.addVelocity (p * nx * cf * Ball.getMass a) (p * ny * cf * Ball.getMass a) b).
Proof.
  intros Hnc Hm. cbv zeta. rewrite <- centerDistance_zero_iff in Hnc.
  unfold physics.resolveCircleCollisionVelocity. fold (centerDistance a b).
  rewrite !fdiv_Some by assumption. cbn. rewrite fdiv_Some by assumption.
  reflexivity.
Qed.

(** C2: with restitution 1, on balls of positive mass whose centers do
    not coincide, [resolveCircleCollisionVelocity] changes each velocity
    along the collision normal by the impulse scalar times the other
    ball's mass, and the momentum along the normal is conserved. *)
Theorem resolveCircleCollisionVelocity_elastic_normal_momentum (a b : Ball) :
  0 < Ball.getMass a -> 0 < Ball.getMass b ->
  ~ coincident a b ->
  exists a' b',
    physics.resolveCircleCollisionVelocity 1 a b = Some (a', b')
    /\ let d := centerDistance a b in
       let nx := (Ball.getX b - Ball.getX a) / d in
       let ny := (Ball.getY b - Ball.getY a) / d in
       let ma := Ball.getMass a in
       let mb := Ball.getMass b in
       let p := 2 * dotProduct nx (Ball.getVX a - Ball.getVX b)
                               ny (Ball.getVY a - Ball.getVY b) / (ma + mb) in
       Ball.getVX a' = Ball.getVX a - p * mb * nx
       /\ Ball.getVY a' = Ball.getVY a - p * mb * ny
       /\ Ball.getVX b' = Ball.getVX b + p * ma * nx
       /\ Ball.getVY b' = Ball.getVY b + p * ma * ny
       /\ ma * dotProduct (Ball.getVX a') nx (Ball.getVY a') ny
          + mb * dotProduct (Ball.getVX b') nx (Ball.getVY b') ny
          = ma * dotProduct (Ball.getVX a) nx (Ball.getVY a) ny
            + mb * dotProduct (Ball.getVX b) nx (Ball.getVY b) ny.
Proof.
  intros Hma Hmb Hnc.
  eexists _, _. split.
  - apply resolveCircleCollisionVelocity_result; [assumption | lra].
  - cbv zeta. unfold Ball.subVelocity, Ball.addVelocity, Ball.getVX, Ball.getVY.
    cbn [m_xVelocity m_yVelocity]. unfold dotProduct.
    repeat split; ring.
Qed.


(** C6: two different balls of radius 1 on the same point pass the
    overlap test, and both resolvers then divide by the zero center
    distance. *)
Theorem coincident_centers_divide_by_zero :
  exists (a b : Ball) (i j : nat),
    i <> j
    /\ centerDistance a b = 0
    /\ Ball.isOverlappingBall i j a b = true
    /\ fdiv ((centerDistance a b - Ball.getRadius a - Ball.getRadius b) / 2
             * (Ball.getX a - Ball.getX b)) (centerDistance a b) = None
    /\ physics.resolveCircleCollisionPosition a b = None
    /\ forall cf : R, physics.resolveCircleCollisionVelocity cf a b = None.
Proof.
  exists (mkBall 5 5 1 0 1 1 true cue 0), (mkBall 5 5 0 0 1 1 true solid 1), 0%nat, 1%nat.
  assert (Hc : coincident (mkBall 5 5 1 0 1 1 true cue 0) (mkBall 5 5 0 0 1 1 true solid 1)).
  { split; reflexivity. }
  pose proof Hc as Hd. apply centerDistance_zero_iff in Hd.
  split; [discriminate|]. split; [exact Hd|]. split.
  - apply isOverlappingBall_true_iff. split; [discriminate|].
    rewrite Hd. cbn. lra.
  - rewrite Hd. split; [apply fdiv_zero|]. split.
    + apply resolveCircleCollisionPosition_coincident, Hc.
    + intros cf. apply resolveCircleCollisionVelocity_coincident, Hc.
Qed.

(** ** Boundary resolution *)


(** ** Sub-stepping *)


(** ** The sub-step loop *)

Section StepLoop.

Variable collisionFriction : R.

Abbreviation collideWith := (physics.collideWith collisionFriction).
Abbreviation checkCollisions := (physics.checkCollisions collisionFriction).
Abbreviation subStep := (physics.subStep collisionFriction).
Abbreviation stepLoop := (physics.stepLoop collisionFriction).

Lemma sameBall_refl (b : Ball) : sameBall b b.
Proof. repeat split. Qed.

Lemma sameBall_trans (a b c : Ball) : sameBall a b -> sameBall b c -> sameBall a c.
Proof.
  unfold sameBall. intros (?&?&?&?&?) (?&?&?&?&?). repeat split; congruence.
Qed.

Lemma sameBalls_refl (l : list Ball) : sameBalls l l.
Proof. apply Forall2_same_length_lookup_2; [reflexivity|].
  intros i x y Hx Hy. rewrite Hx in Hy. injection Hy as <-. apply sameBall_refl. Qed.

Lemma sameBalls_trans (l1 l2 l3 : list Ball) :
  sameBalls l1 l2 -> sameBalls l2 l3 -> sameBalls l1 l3.
Proof.
  unfold sameBalls. intros H12 H23.
  eapply Forall2_trans; [|eassumption|eassumption].
  intros a b c. apply sameBall_trans.
Qed.

Lemma sameBalls_insert (l : list Ball) (i : nat) (b b' : Ball) :
  l !! i = Some b -> sameBall b b' -> sameBalls l (<[i := b']> l).
Proof.
  intros Hl Hs. unfold sameBalls.
  rewrite <- (list_insert_id l i b) at 1 by assumption.
  apply Forall2_insert; [apply sameBalls_refl | assumption].
Qed.

Lemma sameBalls_lookup (l l' : list Ball) (i : nat) (b : Ball) :
  sameBalls l l' -> l !! i = Some b -> exists b', l' !! i = Some b' /\ sameBall b b'.
Proof. intros H Hl. eapply Forall2_lookup_l in H as (b' & ? & ?); eauto. Qed.

Lemma sameBalls_length (l l' : list Ball) : sameBalls l l' -> length l = length l'.
Proof. apply Forall2_length. Qed.

Lemma resolveCircleCollisionPosition_sameBall (a b a' b' : Ball) :
  physics.resolveCircleCollisionPosition a b = Some (a', b') ->
  sameBall a a' /\ sameBall b b'.
Proof.
  unfold physics.resolveCircleCollisionPosition. intros H.
  fdiv_cases H. injection H as <- <-. split; repeat split.
Qed.

Lemma resolveCircleCollisionVelocity_sameBall (a b a' b' : Ball) :
  physics.resolveCircleCollisionVelocity collisionFriction a b = Some (a', b') ->
  sameBall a a' /\ sameBall b b'.
Proof.
  unfold physics.resolveCircleCollisionVelocity. intros H.
  fdiv_cases H. injection H as <- <-. split; repeat split.
Qed.

Lemma tableKept_refl (t : physics.Table) : tableKept t t.
Proof. split; [apply sameBalls_refl | split; reflexivity]. Qed.

Lemma tableKept_trans (t1 t2 t3 : physics.Table) :
  tableKept t1 t2 -> tableKept t2 t3 -> tableKept t1 t3.
Proof.
  intros (?&?&?) (?&?&?). split; [eapply sameBalls_trans; eassumption|].
  split; congruence.
Qed.

Lemma collideWith_kept (i j : nat) (t t' : physics.Table) (hc hc' : bool) :
  collideWith i j (t, hc) = Some (t', hc') -> tableKept t t'.
Proof.
  destruct t as [balls turn]. unfold physics.collideWith. intros H.
  apply bind_Some in H as (a & Ha & H).
  apply bind_Some in H as (b & Hb & H).
  destruct (Ball.isOverlappingBall i j a b) eqn:Hov.
  - apply bind_Some in H as ([a1 b1] & Hp & H).
    apply bind_Some in H as ([a2 b2] & Hv & H).
    injection H as <- <-.
    apply resolveCircleCollisionPosition_sameBall in Hp as [Hpa Hpb].
    apply resolveCircleCollisionVelocity_sameBall in Hv as [Hva Hvb].
    split; [|destruct (decide (firstHitBallType turn = undetermined)); split; reflexivity].
    cbn [fst]. eapply sameBalls_trans.
    + eapply sameBalls_insert; [exact Ha | eapply sameBall_trans; eassumption].
    + apply isOverlappingBall_true_iff in Hov as [Hne _].
      eapply sameBalls_insert.
      * rewrite list_lookup_insert_ne by congruence. exact Hb.
      * eapply sameBall_trans; eassumption.
  - injection H as <- <-. apply tableKept_refl.
Qed.

Lemma checkCollisions_cons (i j : nat) (js : list nat) (s : physics.Table * bool) :
  checkCollisions i (j :: js) s = collideWith i j s ≫= checkCollisions i js.
Proof. reflexivity. Qed.

Lemma stepLoop_S (n i : nat) (sx sy : R) (t : physics.Table) :
  stepLoop (S n) i sx sy (t, false) = subStep i sx sy (t, false) ≫= stepLoop n i sx sy.
Proof. reflexivity. Qed.

Lemma checkCollisions_kept (i : nat) (js : list nat) (t t' : physics.Table)
  (hc hc' : bool) :
  checkCollisions i js (t, hc) = Some (t', hc') -> tableKept t t'.
Proof.
  revert t hc. induction js as [|j js IH]; intros t hc H.
  - injection H as <- <-. apply tableKept_refl.
  - rewrite checkCollisions_cons in H.
    apply bind_Some in H as ([t1 hc1] & Hc & H).
    eapply tableKept_trans.
    + eapply collideWith_kept; eassumption.
    + eapply IH; eassumption.
Qed.

Lemma subStep_kept (i : nat) (sx sy : R) (t t' : physics.Table) (hc hc' : bool) :
  subStep i sx sy (t, hc) = Some (t', hc') -> tableKept t t'.
Proof.
  destruct t as [balls turn]. unfold physics.subStep. intros H.
  apply bind_Some in H as (a & Ha & H).
  apply checkCollisions_kept in H.
  eapply tableKept_trans; [|exact H].
  split; [|split; reflexivity]. cbn [fst].
  eapply sameBalls_insert; [exact Ha | repeat split].
Qed.

Lemma stepLoop_kept (n i : nat) (sx sy : R) (t t' : physics.Table) (hc hc' : bool) :
  stepLoop n i sx sy (t, hc) = Some (t', hc') -> tableKept t t'.
Proof.
  revert t hc. induction n as [|n IH]; intros t hc H.
  - injection H as <- <-. apply tableKept_refl.
  - destruct hc.
    + injection H as <- <-. apply tableKept_refl.
    + rewrite stepLoop_S in H. apply bind_Some in H as ([t1 hc1] & Hs & H).
      eapply tableKept_trans.
      * eapply subStep_kept; eassumption.
      * eapply IH; eassumption.
Qed.

(** Once the flag is set the loop does nothing, whatever the number of
    sub-steps that remain. *)
Lemma stepLoop_collided (n i : nat) (sx sy : R) (t : physics.Table) :
  stepLoop n i sx sy (t, true) = Some (t, true).
Proof. destruct n; reflexivity. Qed.

(** C7: when the [k]-th sub-step of a ball is the first one that
    registers a collision, the loop started with [n >= k] sub-steps
    ends in the state right after that sub-step: the ball received
    exactly [k] position increments, whatever the number [n - k] of
    sub-steps that remain. *)
Theorem stepLoop_stops_at_first_collision
  (k n i : nat) (sx sy : R) (t t' : physics.Table) :
  subSteps collisionFriction i sx sy k t (t', true) ->
  (k <= n)%nat ->
  stepLoop n i sx sy (t, false) = Some (t', true).
Proof.
  intros Hk. revert n.
  assert (G : forall r, subSteps collisionFriction i sx sy k t r ->
              forall n, (k <= n)%nat ->
              stepLoop n i sx sy (t, false)
              = stepLoop (n - k) i sx sy r).
  { clear t' Hk. intros r Hk. induction Hk as [t|k t t1 r Hk IH Hs]; intros n Hn.
    - rewrite Nat.sub_0_r. reflexivity.
    - rewrite IH by lia.
      replace (n - k)%nat with (S (n - S k)) by lia.
      rewrite stepLoop_S, Hs. reflexivity. }
  intros n Hn. rewrite (G _ Hk n Hn). apply stepLoop_collided.
Qed.

(** Conversely the loop always ends that way: after [k <= n]
    sub-steps, of which only the last may have registered a
    collision, and with all [n] of them when none did. *)
Lemma stepLoop_subSteps (n i : nat) (sx sy : R) (t t' : physics.Table) (hc : bool) :
  stepLoop n i sx sy (t, false) = Some (t', hc) ->
  exists k, (k <= n)%nat
            /\ subSteps collisionFriction i sx sy k t (t', hc)
            /\ (hc = false -> k = n).
Proof.
  assert (G : forall n k t1,
              subSteps collisionFriction i sx sy k t (t1, false) ->
              stepLoop n i sx sy (t1, false) = Some (t', hc) ->
              exists k', (k' <= k + n)%nat
                         /\ subSteps collisionFriction i sx sy k' t (t', hc)
                         /\ (hc = false -> k' = (k + n)%nat)).
  { clear n. induction n as [|n IH]; intros k t1 Hk H.
    - injection H as <- <-. exists k. rewrite Nat.add_0_r. auto.
    - rewrite stepLoop_S in H. apply bind_Some in H as ([t2 hc2] & Hs & H).
      destruct hc2.
      + rewrite stepLoop_collided in H. injection H as <- <-.
        exists (S k). split; [lia|]. split; [|discriminate].
        econstructor; eassumption.
      + destruct (IH (S k) t2) as (k' & Hle & Hsub & Hfull).
        * econstructor; eassumption.
        * assumption.
        * exists k'. split; [lia|]. split; [assumption|].
          intros E. rewrite Hfull by assumption. lia. }
  intros H. apply (G n 0%nat t); [constructor | assumption].
Qed.

End StepLoop.

(** ** Pocketing *)

Lemma vectorAt_Some {A : Type} (v : list A) (z : Z) (x : A) :
  vectorAt v z = Some x <-> (0 <= z)%Z /\ v !! Z.to_nat z = Some x.
Proof.
  unfold vectorAt. destruct (decide (0 <= z)%Z); [tauto|].
  split; [discriminate | intros [? _]; contradiction].
Qed.

Lemma vectorAt_in_range {A : Type} (v : list A) (z : Z) :
  (0 <= z < Z.of_nat (length v))%Z -> exists x, vectorAt v z = Some x.
Proof.
  intros Hz. destruct (lookup_lt_is_Some_2 v (Z.to_nat z)) as [x Hx]; [lia|].
  exists x. apply vectorAt_Some. split; [lia | assumption].
Qed.

Lemma applyFriction_sameBall (friction stopVelocity : R) (b : Ball) :
  sameBall b (Ball.applyFriction friction stopVelocity b).
Proof.
  unfold Ball.applyFriction. destruct (decide _); repeat split.
Qed.

Lemma resolveCircleBoundaryCollision_sameBall (cf : R) (b : Ball) (rect : Rectangle) :
  sameBall b (physics.resolveCircleBoundaryCollision cf b rect).
Proof.
  unfold physics.resolveCircleBoundaryCollision.
  repeat match goal with
         | |- context [decide ?P] => destruct (decide P)
         end; repeat split.
Qed.

(** The next player, for at least two players, is another player. *)
Lemma next_player_other (idx len : Z) :
  (0 <= idx < len)%Z -> (1 < len)%Z ->
  (0 <= (idx + 1) `mod` len < len)%Z /\ ((idx + 1) `mod` len)%Z <> idx.
Proof.
  intros Hidx Hlen. split; [apply Z.mod_pos_bound; lia|].
  destruct (decide (idx + 1 = len)%Z) as [E|E].
  - rewrite E, Z.mod_same by lia. lia.
  - rewrite Z.mod_small by lia. lia.
Qed.

Section StepPhysics.

Variable collisionFriction : R.
Variable rollingFriction : R.
Variable stoppingVelocity : R.
Variable playSurface : Rectangle.
Variable isInPocket : Ball -> bool.

Abbreviation pocketBall := (physics.pocketBall isInPocket).
Abbreviation stepBall :=
  (physics.stepBall collisionFriction rollingFriction stoppingVelocity
                    playSurface isInPocket).
Abbreviation stepPhysics :=
  (physics.stepPhysics collisionFriction rollingFriction stoppingVelocity
                       playSurface isInPocket).

Lemma pocketBall_in_pocket (i : nat) (w : World) (ball : Ball) (player : Player) :
  gameBalls w !! i = Some ball ->
  isInPocket ball = true ->
  vectorAt (gamePlayers w) (turnPlayerIndex (turnInfo w)) = Some player ->
  pocketBall i w
  = Some (mkWorld (<[i := Ball.setVisible false ball]> (gameBalls w))
                  (playersAfterPocket (gamePlayers w) (turnPlayerIndex (turnInfo w))
                     (Player.getTargetBallType player) (Ball.getBallType ball))
                  (mkTurn (firstHitBallType (turnInfo w))
                          (pocketedBalls (turnInfo w) ++ [i])
                          (turnPlayerIndex (turnInfo w)))).
Proof.
  intros Hb Hp Hpl. unfold physics.pocketBall, playersAfterPocket.
  rewrite Hb. cbn [mbind option_bind]. rewrite Hp.
  cbn [turnPlayerIndex]. rewrite Hpl. cbn [mbind option_bind].
  change (Ball.getBallType (Ball.setVisible false ball)) with (Ball.getBallType ball).
  destruct (decide (Player.getTargetBallType player = undetermined)) as [Hu|Hu].
  - destruct (decide (Ball.getBallType ball = solid \/ Ball.getBallType ball = striped))
      as [Ht|Ht].
    + destruct (decide (_ /\ _)) as [_|Hn]; [|exfalso; tauto].
      rewrite length_insert.
      apply vectorAt_Some in Hpl as [Hidx Hl]. apply lookup_lt_Some in Hl.
      destruct (vectorAt_in_range
                  (<[Z.to_nat (turnPlayerIndex (turnInfo w)) :=
                       Player.setTargetBallType (Ball.getBallType ball) player]>
                     (gamePlayers w))
                  ((turnPlayerIndex (turnInfo w) + 1) `mod` Z.of_nat (length (gamePlayers w))))
        as [opponent Ho].
      { rewrite length_insert. apply Z.mod_pos_bound. lia. }
      rewrite Ho. reflexivity.
    + destruct (decide (_ /\ _)) as [Hn|_]; [exfalso; tauto | reflexivity].
  - destruct (decide (_ /\ _)) as [Hn|_]; [exfalso; tauto | reflexivity].
Qed.

Lemma pocketBall_not_in_pocket (i : nat) (w : World) (ball : Ball) :
  gameBalls w !! i = Some ball -> isInPocket ball = false -> pocketBall i w = Some w.
Proof.
  intros Hb Hp. unfold physics.pocketBall. rewrite Hb. cbn [mbind option_bind].
  rewrite Hp. reflexivity.
Qed.

(** A visible ball whose step count is not positive is skipped whole. *)
Lemma stepBall_no_steps (i : nat) (w : World) (ball : Ball) (n : Z) :
  gameBalls w !! i = Some ball ->
  physics.stepsNeededOf ball = Some n ->
  (n <= 0)%Z ->
  stepBall i w = Some w.
Proof.
  intros Hb Hn Hle. unfold physics.stepBall. rewrite Hb. cbn [mbind option_bind].
  destruct (negb (Ball.isVisible ball)); [reflexivity|].
  rewrite Hn. cbn [mbind option_bind].
  destruct (decide (IZR n > 0)) as [Hp|_]; [|reflexivity].
  exfalso. apply IZR_le in Hle. lra.
Qed.

(** A visible ball with a positive step count: the sub-step loop, the
    pocket test, friction, the boundary. *)
Lemma stepBall_steps (i : nat) (w w1 : World) (ball ball1 : Ball) (n : Z)
  (balls1 : list Ball) (turn1 : TurnInformation) (hc : bool) :
  gameBalls w !! i = Some ball ->
  Ball.isVisible ball = true ->
  physics.stepsNeededOf ball = Some n ->
  (0 < n)%Z ->
  physics.stepLoop collisionFriction (Z.to_nat n) i
    (Ball.getVX ball / IZR n) (Ball.getVY ball / IZR n)
    (gameBalls w, turnInfo w, false) = Some (balls1, turn1, hc) ->
  pocketBall i (mkWorld balls1 (gamePlayers w) turn1) = Some w1 ->
  gameBalls w1 !! i = Some ball1 ->
  stepBall i w
  = Some (mkWorld
            (<[i := physics.resolveCircleBoundaryCollision collisionFriction
                      (Ball.applyFriction rollingFriction stoppingVelocity ball1)
                      playSurface]> (gameBalls w1))
            (gamePlayers w1) (turnInfo w1)).
Proof.
  intros Hb Hv Hn Hpos Hloop Hpocket Hb1.
  unfold physics.stepBall. rewrite Hb. cbn [mbind option_bind].
  rewrite Hv. cbn [negb]. rewrite Hn. cbn [mbind option_bind].
  apply IZR_lt in Hpos.
  destruct (decide (IZR n > 0)) as [_|Hp]; [|exfalso; lra].
  unfold physics.stepSizeOf. rewrite !fdiv_Some by lra. cbn [mbind option_bind].
  rewrite Hloop. cbn [mbind option_bind]. rewrite Hpocket. cbn [mbind option_bind].
  rewrite Hb1. reflexivity.
Qed.

(** C4, for a ball that moves: for a visible ball whose step count is
    positive, when the ball lies in a pocket region after its sub-step
    loop, the step of that ball leaves it invisible and appended to the
    pocketed balls;
    with at least two players, if the acting player's target is
    undetermined and the ball is solid or striped, the acting player
    gets the ball's type and the next player the other type, and the
    players are unchanged otherwise. *)
Theorem stepBall_pockets (i : nat) (w : World) (ball ball1 : Ball) (n : Z)
  (balls1 : list Ball) (turn1 : TurnInformation) (hc : bool) (player : Player) :
  gameBalls w !! i = Some ball ->
  Ball.isVisible ball = true ->
  physics.stepsNeededOf ball = Some n ->
  (0 < n)%Z ->
  physics.stepLoop collisionFriction (Z.to_nat n) i
    (Ball.getVX ball / IZR n) (Ball.getVY ball / IZR n)
    (gameBalls w, turnInfo w, false) = Some (balls1, turn1, hc) ->
  balls1 !! i = Some ball1 ->
  isInPocket ball1 = true ->
  vectorAt (gamePlayers w) (turnPlayerIndex (turnInfo w)) = Some player ->
  (1 < length (gamePlayers w))%nat ->
  exists (w' : World) (ball' : Ball),
    stepBall i w = Some w'
    /\ gameBalls w' !! i = Some ball'
    /\ Ball.isVisible ball' = false
    /\ Ball.getBallType ball' = Ball.getBallType ball
    /\ pocketedBalls (turnInfo w') = pocketedBalls (turnInfo w) ++ [i]
    /\ let idx := turnPlayerIndex (turnInfo w) in
       let next := ((idx + 1) `mod` Z.of_nat (length (gamePlayers w)))%Z in
       let t := Ball.getBallType ball in
       (Player.getTargetBallType player = undetermined /\ (t = solid \/ t = striped) ->
        next <> idx
        /\ vectorAt (gamePlayers w') idx = Some (mkPlayer t)
        /\ vectorAt (gamePlayers w') next
           = Some (mkPlayer (if decide (t = solid) then striped else solid)))
       /\ (~ (Player.getTargetBallType player = undetermined /\ (t = solid \/ t = striped)) ->
           gamePlayers w' = gamePlayers w).
Proof.
  intros Hb Hv Hn Hpos Hloop Hb1 Hp Hpl Hlen.
  pose proof (stepLoop_kept _ _ _ _ _ _ _ _ _ Hloop) as (Hsame & Hpk & Hidx).
  cbn [fst snd] in Hsame, Hpk, Hidx.
  destruct (sameBalls_lookup _ _ _ _ Hsame Hb) as (ball1' & Hb1' & Hs1).
  rewrite Hb1 in Hb1'. injection Hb1' as <-.
  assert (Hi : (i < length balls1)%nat) by (eapply lookup_lt_Some; eassumption).
  pose proof (pocketBall_in_pocket i (mkWorld balls1 (gamePlayers w) turn1) ball1 player)
    as Hpocket.
  cbn [gameBalls gamePlayers turnInfo] in Hpocket. rewrite Hidx in Hpocket.
  specialize (Hpocket Hb1 Hp Hpl).
  eexists _, _. split.
  { eapply stepBall_steps; try eassumption.
    cbn [gameBalls]. apply list_lookup_insert_eq. assumption. }
  cbn [gameBalls gamePlayers turnInfo pocketedBalls].
  split; [apply list_lookup_insert_eq; rewrite length_insert; assumption|].
  pose proof (applyFriction_sameBall rollingFriction stoppingVelocity
                (Ball.setVisible false ball1)) as Hf.
  pose proof (resolveCircleBoundaryCollision_sameBall collisionFriction
                (Ball.applyFriction rollingFriction stoppingVelocity
                   (Ball.setVisible false ball1)) playSurface) as Hr.
  destruct (sameBall_trans _ _ _ Hf Hr) as (_ & _ & Hvis & Hty & _).
  destruct Hs1 as (_ & _ & _ & Hty1 & _).
  split; [exact Hvis|].
  split; [unfold Ball.getBallType; rewrite Hty; cbn; exact Hty1|].
  split; [rewrite Hpk; reflexivity|].
  cbv zeta. change (Ball.getBallType ball1) with (m_ballType ball1).
  rewrite Hty1. fold (Ball.getBallType ball).
  unfold playersAfterPocket.
  destruct (decide (_ /\ _)) as [Hset|Hkeep]; split; try tauto.
  intros _.
  apply vectorAt_Some in Hpl as [Hidx0 Hl]. apply lookup_lt_Some in Hl.
  destruct (next_player_other (turnPlayerIndex (turnInfo w))
              (Z.of_nat (length (gamePlayers w)))) as [Hrange Hne]; [lia | lia |].
  split; [exact Hne|]. split.
  - apply vectorAt_Some. split; [assumption|].
    rewrite list_lookup_insert_ne by lia.
    apply list_lookup_insert_eq. assumption.
  - apply vectorAt_Some. split; [lia|].
    apply list_lookup_insert_eq. rewrite length_insert. lia.
Qed.

End StepPhysics.

(** ** Instances *)

Lemma leftBall_rightBall_apart : ~ coincident leftBall rightBall.
Proof. intros [H _]. cbn in H. lra. Qed.



Lemma resolveCircleCollisionVelocity_elastic_normal_momentum_witness :
  exists a' b',
    physics.resolveCircleCollisionVelocity 1 leftBall rightBall = Some (a', b')
    /\ let nx := (Ball.getX rightBall - Ball.getX leftBall)
                 / centerDistance leftBall rightBall in
       let ny := (Ball.getY rightBall - Ball.getY leftBall)
                 / centerDistance leftBall rightBall in
       1 * dotProduct (Ball.getVX a') nx (Ball.getVY a') ny
       + 1 * dotProduct (Ball.getVX b') nx (Ball.getVY b') ny
       = 1 * dotProduct 1 nx 0 ny + 1 * dotProduct (- 1) nx 0 ny.
Proof.
  destruct (resolveCircleCollisionVelocity_elastic_normal_momentum leftBall rightBall)
    as (a' & b' & He & _ & _ & _ & _ & Hm).
  - cbn. lra.
  - cbn. lra.
  - exact leftBall_rightBall_apart.
  - exists a', b'. split; [exact He | exact Hm].
Defined.





(** An overlap of two balls apart from each other, with radii and
    masses that do not sum to zero, is resolved and sets the flag. *)
Lemma collideWith_overlapping (cf : R) (i j : nat) (balls : list Ball)
  (turn : TurnInformation) (hc : bool) (a b : Ball) :
  balls !! i = Some a -> balls !! j = Some b ->
  Ball.isOverlappingBall i j a b = true ->
  ~ coincident a b ->
  Ball.getRadius a + Ball.getRadius b <> 0 ->
  Ball.getMass a + Ball.getMass b <> 0 ->
  exists t', physics.collideWith cf i j (balls, turn, hc) = Some (t', true).
Proof.
  intros Ha Hb Hov Hnc Hr Hm.
  unfold physics.collideWith. rewrite Ha. cbn [mbind option_bind].
  rewrite Hb. cbn [mbind option_bind]. rewrite Hov.
  rewrite resolveCircleCollisionPosition_result by assumption.
  cbn [mbind option_bind].
  rewrite resolveCircleCollisionVelocity_result.
  - cbn [mbind option_bind]. eexists. reflexivity.
  - rewrite <- centerDistance_zero_iff.
    rewrite <- centerDistance_zero_iff in Hnc.
    rewrite separated_distance by (reflexivity || assumption).
    apply Rabs_no_R0. assumption.
  - exact Hm.
Qed.

Lemma strikerBall_first_subStep :
  exists t',
    physics.subStep 1 0 1 0 ([strikerBall; struckBall], testTurn, false)
    = Some (t', true).
Proof.
  destruct (collideWith_overlapping 1 0 1
              [Ball.addPosition 1 0 strikerBall; struckBall] testTurn false
              (Ball.addPosition 1 0 strikerBall) struckBall)
    as [t' Ht'].
  - reflexivity.
  - reflexivity.
  - unfold Ball.isOverlappingBall. cbn. apply bool_decide_eq_true_2. lra.
  - intros [H _]. cbn in H. lra.
  - cbn. lra.
  - cbn. lra.
  - exists t'.
    change (physics.subStep 1 0 1 0 ([strikerBall; struckBall], testTurn, false))
      with (physics.collideWith 1 0 1
              ([Ball.addPosition 1 0 strikerBall; struckBall], testTurn, false)
            ≫= physics.checkCollisions 1 0 []).
    rewrite Ht'. reflexivity.
Qed.

(** The striker touches the struck ball after its first sub-step; the
    loop started with two sub-steps ends there. *)
Lemma stepLoop_stops_at_first_collision_witness :
  exists t',
    physics.subStep 1 0 1 0 ([strikerBall; struckBall], testTurn, false) = Some (t', true)
    /\ physics.stepLoop 1 2 0 1 0 ([strikerBall; struckBall], testTurn, false)
       = Some (t', true).
Proof.
  destruct strikerBall_first_subStep as [t' Ht']. exists t'. split; [exact Ht'|].
  apply (stepLoop_stops_at_first_collision 1 1 2 0 1 0
           ([strikerBall; struckBall], testTurn) t').
  - eapply subSteps_S; [apply subSteps_O | exact Ht'].
  - lia.
Defined.

(** ** A ball at rest in a pocket region *)

Lemma restingBall_stepsNeeded : physics.stepsNeededOf restingBall = Some 0%Z.
Proof.
  unfold physics.stepsNeededOf. rewrite fdiv_Some by (cbn; lra).
  cbn [mbind option_bind mret option_ret]. f_equal.
  apply Zceil_eq. cbn. rewrite Rabs_R0. lra.
Qed.

(** A visible ball at rest inside a pocket region is skipped by
    [stepPhysics]: it stays visible and is not appended to the pocketed
    balls, because the pocket test is inside [if (stepsNeeded > 0.0)]. *)
Lemma restingBall_in_pocket_not_pocketed :
  let w := mkWorld [restingBall] testPlayers testTurn in
  Ball.isVisible restingBall = true
  /\ Ball.getVX restingBall = 0 /\ Ball.getVY restingBall = 0
  /\ cornerPocket restingBall = true
  /\ physics.stepPhysics 1 (1 / 100) (1 / 10) testSurface cornerPocket w = Some w
  /\ gameBalls w !! 0%nat = Some restingBall
  /\ pocketedBalls (turnInfo w) = [].
Proof.
  cbv zeta. split; [reflexivity|]. split; [reflexivity|]. split; [reflexivity|].
  split; [|split].
  - unfold cornerPocket. apply bool_decide_eq_true_2. cbn. lra.
  - unfold physics.stepPhysics. cbn [gameBalls length seq physics.stepBalls].
    rewrite (stepBall_no_steps 1 (1 / 100) (1 / 10) testSurface cornerPocket
               0 _ restingBall 0).
    + reflexivity.
    + reflexivity.
    + exact restingBall_stepsNeeded.
    + lia.
  - split; reflexivity.
Qed.

Lemma rollingBall_stepsNeeded : physics.stepsNeededOf rollingBall = Some 1%Z.
Proof.
  unfold physics.stepsNeededOf. rewrite fdiv_Some by (cbn; lra).
  cbn [mbind option_bind mret option_ret]. f_equal.
  apply Zceil_eq. cbn. rewrite Rabs_R0, (Rabs_left (-1)) by lra. lra.
Qed.

(** The rolling ball enters the corner pocket on the first player's
    turn: it is pocketed, the first player gets solid and the second
    striped. *)
Lemma stepBall_pockets_witness :
  let w := mkWorld [rollingBall] testPlayers testTurn in
  exists (w' : World) (ball' : Ball),
    physics.stepBall 1 (1 / 100) (1 / 10) testSurface cornerPocket 0 w = Some w'
    /\ gameBalls w' !! 0%nat = Some ball'
    /\ Ball.isVisible ball' = false
    /\ pocketedBalls (turnInfo w') = [0%nat]
    /\ vectorAt (gamePlayers w') 0 = Some (mkPlayer solid)
    /\ vectorAt (gamePlayers w') 1 = Some (mkPlayer striped).
Proof.
  cbv zeta.
  destruct (stepBall_pockets 1 (1 / 100) (1 / 10) testSurface cornerPocket
              0 (mkWorld [rollingBall] testPlayers testTurn)
              rollingBall (Ball.addPosition (- 1 / 1) (0 / 1) rollingBall) 1
              [Ball.addPosition (- 1 / 1) (0 / 1) rollingBall] testTurn false
              (mkPlayer undetermined))
    as (w' & ball' & He & Hb & Hv & _ & Hp & Hset & _).
  - reflexivity.
  - reflexivity.
  - exact rollingBall_stepsNeeded.
  - lia.
  - reflexivity.
  - reflexivity.
  - unfold cornerPocket. apply bool_decide_eq_true_2. cbn. lra.
  - reflexivity.
  - cbn. lia.
  - exists w', ball'. split; [exact He|]. split; [exact Hb|]. split; [exact Hv|].
    split; [exact Hp|].
    destruct Hset as (_ & H0 & H1); [split; [reflexivity | left; reflexivity]|].
    split; [exact H0 | exact H1].
Defined.

(** * More of the ball and of the resolvers *)

(** X1: the overlap test is symmetric in the two balls. *)
Theorem isOverlappingBall_symmetric (i j : nat) (a b : Ball) :
  Ball.isOverlappingBall i j a b = Ball.isOverlappingBall j i b a.
Proof.
  unfold Ball.isOverlappingBall, Ball.getRadius.
  destruct (decide (j = i)) as [E|E], (decide (i = j)) as [E'|E'];
    try reflexivity; try congruence.
  apply bool_decide_ext. split; intros H; nra.
Qed.

(** The collision normal has length one. *)
Lemma unit_normal (a b : Ball) :
  ~ coincident a b ->
  let d := centerDistance a b in
  let nx := (Ball.getX b - Ball.getX a) / d in
  let ny := (Ball.getY b - Ball.getY a) / d in
  nx * nx + ny * ny = 1.
Proof.
  intros Hnc. cbv zeta. rewrite <- centerDistance_zero_iff in Hnc.
  pose proof (calculateHypotenuse_sqr (Ball.getX a - Ball.getX b)
                                      (Ball.getY a - Ball.getY b)) as Hsq.
  fold (centerDistance a b) in Hsq.
  set (d := centerDistance a b) in *.
  transitivity (((Ball.getX a - Ball.getX b) * (Ball.getX a - Ball.getX b)
                 + (Ball.getY a - Ball.getY b) * (Ball.getY a - Ball.getY b)) / (d * d)).
  - field. assumption.
  - rewrite <- Hsq. field. assumption.
Qed.

(** X4: for every restitution coefficient the velocity resolution
    changes each velocity along the collision normal only, and
    multiplies the relative velocity along the normal by
    [1 - 2 * collisionFriction]. *)
Theorem resolveCircleCollisionVelocity_normal_law
  (collisionFriction : R) (a b a' b' : Ball) :
  ~ coincident a b ->
  physics.resolveCircleCollisionVelocity collisionFriction a b = Some (a', b') ->
  let d := centerDistance a b in
  let nx := (Ball.getX b - Ball.getX a) / d in
  let ny := (Ball.getY b - Ball.getY a) / d in
  (Ball.getVX a' - Ball.getVX a) * ny = (Ball.getVY a' - Ball.getVY a) * nx
  /\ (Ball.getVX b' - Ball.getVX b) * ny = (Ball.getVY b' - Ball.getVY b) * nx
  /\ dotProduct nx (Ball.getVX a' - Ball.getVX b') ny (Ball.getVY a' - Ball.getVY b')
     = (1 - 2 * collisionFriction)
       * dotProduct nx (Ball.getVX a - Ball.getVX b) ny (Ball.getVY a - Ball.getVY b).
Proof.
  intros Hnc He. cbv zeta.
  pose proof (unit_normal a b Hnc) as Hn. cbv zeta in Hn.
  assert (Hm : Ball.getMass a + Ball.getMass b <> 0).
  { intros Hm. unfold physics.resolveCircleCollisionVelocity in He.
    rewrite <- centerDistance_zero_iff in Hnc. fold (centerDistance a b) in He.
    rewrite !fdiv_Some in He by assumption. cbn [mbind option_bind] in He.
    rewrite Hm, fdiv_zero in He. discriminate He. }
  rewrite resolveCircleCollisionVelocity_result in He by assumption.
  injection He as <- <-.
  unfold Ball.subVelocity, Ball.addVelocity, Ball.getVX, Ball.getVY in *.
  cbn [m_xVelocity m_yVelocity].
  set (nx := (Ball.getX b - Ball.getX a) / centerDistance a b) in *.
  set (ny := (Ball.getY b - Ball.getY a) / centerDistance a b) in *.
  unfold dotProduct.
  set (s := nx * (m_xVelocity a - m_xVelocity b) + ny * (m_yVelocity a - m_yVelocity b)).
  split; [ring | split; [ring|]].
  transitivity (s - 2 * collisionFriction * s * (nx * nx + ny * ny)
                    * ((Ball.getMass a + Ball.getMass b) / (Ball.getMass a + Ball.getMass b))).
  - unfold s. field. assumption.
  - rewrite Hn. field. assumption.
Qed.

(** X5: on balls of positive mass, with a restitution coefficient
    between 0 and 1, the velocity resolution never increases the total
    kinetic energy, and with coefficient 1 it conserves it. *)
Theorem resolveCircleCollisionVelocity_energy
  (collisionFriction : R) (a b a' b' : Ball) :
  0 < Ball.getMass a -> 0 < Ball.getMass b ->
  0 <= collisionFriction <= 1 ->
  ~ coincident a b ->
  physics.resolveCircleCollisionVelocity collisionFriction a b = Some (a', b') ->
  kineticEnergy a' + kineticEnergy b' <= kineticEnergy a + kineticEnergy b
  /\ (collisionFriction = 1 ->
      kineticEnergy a' + kineticEnergy b' = kineticEnergy a + kineticEnergy b).
Proof.
  intros Hma Hmb Hcf Hnc He.
  pose proof (unit_normal a b Hnc) as Hn. cbv zeta in Hn.
  rewrite resolveCircleCollisionVelocity_result in He by (assumption || lra).
  injection He as <- <-.
  unfold kineticEnergy, Ball.subVelocity, Ball.addVelocity, Ball.getVX, Ball.getVY,
    Ball.getMass in *.
  cbn [m_xVelocity m_yVelocity m_mass].
  set (nx := (Ball.getX b - Ball.getX a) / centerDistance a b) in *.
  set (ny := (Ball.getY b - Ball.getY a) / centerDistance a b) in *.
  unfold dotProduct.
  set (s := nx * (m_xVelocity a - m_xVelocity b) + ny * (m_yVelocity a - m_yVelocity b)).
  set (ma := m_mass a) in *. set (mb := m_mass b) in *.
  set (cf := collisionFriction) in *.
  assert (E : ma * ((m_xVelocity a - 2 * s / (ma + mb) * nx * cf * mb)
                    * (m_xVelocity a - 2 * s / (ma + mb) * nx * cf * mb)
                    + (m_yVelocity a - 2 * s / (ma + mb) * ny * cf * mb)
                      * (m_yVelocity a - 2 * s / (ma + mb) * ny * cf * mb)) / 2
              + mb * ((m_xVelocity b + 2 * s / (ma + mb) * nx * cf * ma)
                      * (m_xVelocity b + 2 * s / (ma + mb) * nx * cf * ma)
                      + (m_yVelocity b + 2 * s / (ma + mb) * ny * cf * ma)
                        * (m_yVelocity b + 2 * s / (ma + mb) * ny * cf * ma)) / 2
              = ma * (m_xVelocity a * m_xVelocity a + m_yVelocity a * m_yVelocity a) / 2
                + mb * (m_xVelocity b * m_xVelocity b + m_yVelocity b * m_yVelocity b) / 2
                - 2 * (ma * mb / (ma + mb)) * cf * (1 - cf) * (s * s)).
  { transitivity
      (ma * (m_xVelocity a * m_xVelocity a + m_yVelocity a * m_yVelocity a) / 2
       + mb * (m_xVelocity b * m_xVelocity b + m_yVelocity b * m_yVelocity b) / 2
       - 2 * (ma * mb / (ma + mb)) * cf * (s * s)
       + 2 * (ma * mb / (ma + mb)) * cf * cf * (s * s) * (nx * nx + ny * ny)).
    - unfold s. field. lra.
    - rewrite Hn. field. lra. }
  rewrite E.
  assert (Hq : 0 <= ma * mb / (ma + mb)).
  { apply Rmult_le_pos; [nra|]. left. apply Rinv_0_lt_compat. lra. }
  assert (Hs : 0 <= s * s) by nra.
  split.
  - assert (0 <= 2 * (ma * mb / (ma + mb)) * cf * (1 - cf) * (s * s)); [|lra].
    apply Rmult_le_pos; [|exact Hs].
    apply Rmult_le_pos; [|lra].
    apply Rmult_le_pos; [|lra].
    apply Rmult_le_pos; [lra | exact Hq].
  - intros ->. lra.
Qed.

(** X6: a ball that lies inside the rectangle, edges included, is
    returned by [resolveCircleBoundaryCollision] as it is: no wall test
    fires, nothing is added to the position and no velocity is
    flipped. *)
Theorem resolveCircleBoundaryCollision_inside_unchanged
  (collisionFriction : R) (b : Ball) (rect : Rectangle) :
  insideRectangle b rect ->
  physics.resolveCircleBoundaryCollision collisionFriction b rect = b.
Proof.
  unfold insideRectangle, physics.resolveCircleBoundaryCollision,
    Ball.getX, Ball.getY, Ball.getRadius.
  intros (H1 & H2 & H3 & H4).
  destruct (decide (m_xPosition b - m_radius b < xPos1 rect)); [exfalso; lra|].
  destruct (decide (m_xPosition b + m_radius b > xPos2 rect)); [exfalso; lra|].
  destruct (decide (m_yPosition b - m_radius b < yPos1 rect)); [exfalso; lra|].
  destruct (decide (m_yPosition b + m_radius b > yPos2 rect)); [exfalso; lra|].
  destruct (decide (0 <> 0 \/ 0 <> 0)) as [[H|H]|_]; [contradiction | contradiction |].
  reflexivity.
Qed.

(** ** Ball.cpp: the wall and movement steps *)

Lemma calcPythagoreanHyp_opp_l (a b : R) :
  calcPythagoreanHyp (a * -1) b = calcPythagoreanHyp a b.
Proof. unfold calcPythagoreanHyp. f_equal. ring. Qed.

Lemma calcPythagoreanHyp_opp_r (a b : R) :
  calcPythagoreanHyp a (b * -1) = calcPythagoreanHyp a b.
Proof. unfold calcPythagoreanHyp. f_equal. ring. Qed.

Lemma calcPythagoreanHyp_scale (k a b : R) :
  0 <= k -> calcPythagoreanHyp (k * a) (k * b) = k * calcPythagoreanHyp a b.
Proof. apply calculateHypotenuse_scale. Qed.

Lemma wallCollisionStep_inside (startX startY endX endY : Z) (b : Ball) :
  insideWalls b startX startY endX endY ->
  Ball.wallCollisionStep startX startY endX endY b = b.
Proof.
  unfold insideWalls, insideRectangle, Ball.wallCollisionStep,
    Ball.getX, Ball.getY, Ball.getRadius.
  cbn [xPos1 xPos2 yPos1 yPos2]. intros (H1 & H2 & H3 & H4).
  destruct (decide (m_xPosition b - m_radius b < IZR startX)); [exfalso; lra|].
  destruct (decide (m_xPosition b + m_radius b > IZR endX)); [exfalso; lra|].
  destruct (decide (m_yPosition b - m_radius b < IZR startY)); [exfalso; lra|].
  destruct (decide (m_yPosition b + m_radius b > IZR endY)); [exfalso; lra|].
  reflexivity.
Qed.

Lemma wallCollisionStep_velocity (startX startY endX endY : Z) (b : Ball) :
  let b' := Ball.wallCollisionStep startX startY endX endY b in
  Ball.getRadius b' = Ball.getRadius b
  /\ (Ball.getVX b' = Ball.getVX b \/ Ball.getVX b' = - Ball.getVX b)
  /\ (Ball.getVY b' = Ball.getVY b \/ Ball.getVY b' = - Ball.getVY b)
  /\ calcPythagoreanHyp (Ball.getVX b') (Ball.getVY b')
     = calcPythagoreanHyp (Ball.getVX b) (Ball.getVY b).
Proof.
  unfold Ball.wallCollisionStep, Ball.getVX, Ball.getVY, Ball.getRadius. cbv zeta.
  destruct (decide (m_xPosition b - m_radius b < IZR startX));
    [|destruct (decide (m_xPosition b + m_radius b > IZR endX))].
  all: cbn [Ball.setVelocity Ball.setPosition
            m_xPosition m_yPosition m_radius m_xVelocity m_yVelocity].
  all: destruct (decide (m_yPosition b - m_radius b < IZR startY));
    [|destruct (decide (m_yPosition b + m_radius b > IZR endY))].
  all: cbn [Ball.setVelocity Ball.setPosition
            m_xPosition m_yPosition m_radius m_xVelocity m_yVelocity].
  all: rewrite ?calcPythagoreanHyp_opp_l, ?calcPythagoreanHyp_opp_r.
  all: split; [reflexivity|].
  all: split; [first [left; reflexivity | right; lra]|].
  all: split; [first [left; reflexivity | right; lra] | reflexivity].
Qed.

(** X7: whatever the walls, [wallCollisionStep] keeps the radius and
    the speed: each velocity component is kept or exactly negated; and
    a ball that lies between the walls, edges included, is left as it
    is. *)
Theorem wallCollisionStep_keeps_speed (startX startY endX endY : Z) (b : Ball) :
  let b' := Ball.wallCollisionStep startX startY endX endY b in
  Ball.getRadius b' = Ball.getRadius b
  /\ (Ball.getVX b' = Ball.getVX b \/ Ball.getVX b' = - Ball.getVX b)
  /\ (Ball.getVY b' = Ball.getVY b \/ Ball.getVY b' = - Ball.getVY b)
  /\ calcPythagoreanHyp (Ball.getVX b') (Ball.getVY b')
     = calcPythagoreanHyp (Ball.getVX b) (Ball.getVY b)
  /\ (insideWalls b startX startY endX endY -> b' = b).
Proof.
  cbv zeta.
  destruct (wallCollisionStep_velocity startX startY endX endY b) as (Hr & Hx & Hy & Hs).
  repeat split; try assumption.
  apply wallCollisionStep_inside.
Qed.

(** X8: [movementStep] always moves the ball by exactly the velocity it
    leaves the ball with (by nothing when it stops the ball), and keeps
    the radius. *)
Theorem movementStep_moves_by_new_velocity (friction stopVelocity : R) (b : Ball) :
  let b' := Ball.movementStep friction stopVelocity b in
  Ball.getX b' = Ball.getX b + Ball.getVX b'
  /\ Ball.getY b' = Ball.getY b + Ball.getVY b'
  /\ Ball.getRadius b' = Ball.getRadius b.
Proof.
  cbv zeta. unfold Ball.movementStep, Ball.getX, Ball.getY, Ball.getVX, Ball.getVY,
    Ball.getRadius.
  destruct (decide _); cbn; repeat split; lra.
Qed.

(** X9: with a friction coefficient between 0 and 1, [movementStep]
    never increases the speed: a ball below the stopping threshold ends
    with velocity zero, any other ball with [1 - friction] times its
    velocity. *)
Theorem movementStep_slows (friction stopVelocity : R) (b : Ball) :
  0 <= friction <= 1 ->
  let b' := Ball.movementStep friction stopVelocity b in
  let speed := calcPythagoreanHyp (Ball.getVX b) (Ball.getVY b) in
  let speed' := calcPythagoreanHyp (Ball.getVX b') (Ball.getVY b') in
  speed' <= speed
  /\ (speed < stopVelocity -> Ball.getVX b' = 0 /\ Ball.getVY b' = 0)
  /\ (~ speed < stopVelocity ->
      Ball.getVX b' = (1 - friction) * Ball.getVX b
      /\ Ball.getVY b' = (1 - friction) * Ball.getVY b
      /\ speed' = (1 - friction) * speed).
Proof.
  intros Hf. cbv zeta.
  unfold Ball.movementStep, Ball.getVX, Ball.getVY.
  pose proof (calculateHypotenuse_nonneg (m_xVelocity b) (m_yVelocity b)) as Hs.
  change (calculateHypotenuse (m_xVelocity b) (m_yVelocity b))
    with (calcPythagoreanHyp (m_xVelocity b) (m_yVelocity b)) in Hs.
  destruct (decide (calcPythagoreanHyp (m_xVelocity b) (m_yVelocity b) < stopVelocity))
    as [Hstop|Hgo];
    cbn [Ball.setVelocity Ball.setPosition m_xVelocity m_yVelocity].
  - split; [|split; [auto | intros Hn; contradiction]].
    replace (calcPythagoreanHyp 0 0) with 0; [exact Hs|].
    symmetry. apply (calculateHypotenuse_zero_iff 0 0). auto.
  - assert (E : calcPythagoreanHyp (m_xVelocity b - m_xVelocity b * friction)
                                   (m_yVelocity b - m_yVelocity b * friction)
                = (1 - friction) * calcPythagoreanHyp (m_xVelocity b) (m_yVelocity b)).
    { rewrite <- calcPythagoreanHyp_scale by lra. f_equal; ring. }
    split; [rewrite E; nra|]. split; [intros Hn; contradiction|].
    intros _. split; [ring | split; [ring | exact E]].
Qed.

Lemma movementStep_radius (friction stopVelocity : R) (b : Ball) :
  Ball.getRadius (Ball.movementStep friction stopVelocity b) = Ball.getRadius b.
Proof. unfold Ball.movementStep. destruct (decide _); reflexivity. Qed.

Lemma movementStep_speed_le (friction stopVelocity : R) (b : Ball) :
  0 <= friction <= 1 ->
  calcPythagoreanHyp (Ball.getVX (Ball.movementStep friction stopVelocity b))
                     (Ball.getVY (Ball.movementStep friction stopVelocity b))
  <= calcPythagoreanHyp (Ball.getVX b) (Ball.getVY b).
Proof.
  intros Hf. unfold Ball.movementStep, Ball.getVX, Ball.getVY.
  pose proof (calculateHypotenuse_nonneg (m_xVelocity b) (m_yVelocity b)) as Hs.
  change (calculateHypotenuse (m_xVelocity b) (m_yVelocity b))
    with (calcPythagoreanHyp (m_xVelocity b) (m_yVelocity b)) in Hs.
  destruct (decide _); cbn [Ball.setVelocity Ball.setPosition m_xVelocity m_yVelocity].
  - replace (calcPythagoreanHyp 0 0) with 0; [exact Hs|].
    symmetry. apply (calculateHypotenuse_zero_iff 0 0). auto.
  - replace (m_xVelocity b - m_xVelocity b * friction)
      with ((1 - friction) * m_xVelocity b) by ring.
    replace (m_yVelocity b - m_yVelocity b * friction)
      with ((1 - friction) * m_yVelocity b) by ring.
    rewrite calcPythagoreanHyp_scale by lra. nra.
Qed.

(** X10: with a friction coefficient between 0 and 1, [update]
    (movement step, then wall step) keeps the radius and never
    increases the speed, whatever the walls. *)
Theorem update_never_speeds_up
  (frictionCoefficient stoppingVelocity : R)
  (playSurfaceX playSurfaceY screenWidth screenHeight : Z) (b : Ball) :
  0 <= frictionCoefficient <= 1 ->
  let b' := Ball.update frictionCoefficient stoppingVelocity
                        playSurfaceX playSurfaceY screenWidth screenHeight b in
  Ball.getRadius b' = Ball.getRadius b
  /\ calcPythagoreanHyp (Ball.getVX b') (Ball.getVY b')
     <= calcPythagoreanHyp (Ball.getVX b) (Ball.getVY b).
Proof.
  intros Hf. cbv zeta. unfold Ball.update.
  destruct (wallCollisionStep_velocity playSurfaceX playSurfaceY
              (screenWidth - playSurfaceX) (screenHeight - playSurfaceY)
              (Ball.movementStep frictionCoefficient stoppingVelocity b))
    as (Hr & _ & _ & Hs).
  rewrite Hr, Hs, movementStep_radius. split; [reflexivity|].
  apply movementStep_speed_le. exact Hf.
Qed.

(** * The whole tick *)

(** X11: for a ball of positive radius the step count is never
    negative, and it is positive exactly when the ball has a non-zero
    velocity component: [stepPhysics] skips exactly the balls at rest. *)
Theorem stepsNeeded_positive_iff_moving (ball : Ball) :
  0 < Ball.getRadius ball ->
  exists n : Z,
    physics.stepsNeededOf ball = Some n
    /\ (0 <= n)%Z
    /\ ((0 < n)%Z <-> Ball.getVX ball <> 0 \/ Ball.getVY ball <> 0).
Proof.
  intros Hr. unfold physics.stepsNeededOf. rewrite fdiv_Some by lra.
  cbn [mbind option_bind].
  set (q := (Rabs (Ball.getVX ball) + Rabs (Ball.getVY ball)) / Ball.getRadius ball).
  exists (Zceil q). split; [reflexivity|].
  destruct (Zceil_bound q) as [Hlo Hhi].
  pose proof (Rabs_pos (Ball.getVX ball)) as Hx.
  pose proof (Rabs_pos (Ball.getVY ball)) as Hy.
  assert (Hq : 0 <= q).
  { unfold q. apply Rmult_le_pos; [lra|]. left. apply Rinv_0_lt_compat. lra. }
  assert (Hqr : q * Ball.getRadius ball
                = Rabs (Ball.getVX ball) + Rabs (Ball.getVY ball))
    by (unfold q; field; lra).
  split; [apply le_IZR; lra|]. split.
  - intros Hn.
    destruct (decide (Ball.getVX ball = 0)) as [Ex|Ex]; [|left; exact Ex].
    destruct (decide (Ball.getVY ball = 0)) as [Ey|Ey]; [|right; exact Ey].
    exfalso. rewrite Ex, Ey, Rabs_R0 in Hqr.
    assert (q = 0) by nra.
    assert (Hlt : (Zceil q < 1)%Z) by (apply lt_IZR; lra).
    lia.
  - intros Hv. apply lt_IZR.
    assert (0 < Rabs (Ball.getVX ball) + Rabs (Ball.getVY ball)).
    { destruct Hv as [Hv|Hv]; apply Rabs_pos_lt in Hv; lra. }
    assert (0 < q) by nra. lra.
Qed.

Section Tick.

Variable collisionFriction : R.
Variable rollingFriction : R.
Variable stoppingVelocity : R.
Variable playSurface : Rectangle.
Variable isInPocket : Ball -> bool.

Abbreviation pocketBall' := (physics.pocketBall isInPocket).
Abbreviation stepBall' :=
  (physics.stepBall collisionFriction rollingFriction stoppingVelocity
                    playSurface isInPocket).
Abbreviation stepBalls' :=
  (physics.stepBalls collisionFriction rollingFriction stoppingVelocity
                     playSurface isInPocket).
Abbreviation stepPhysics' :=
  (physics.stepPhysics collisionFriction rollingFriction stoppingVelocity
                       playSurface isInPocket).

(** The first-hit type through the collision scan: once determined it
    is kept. *)
Lemma collideWith_firstHit (i j : nat) (t t' : physics.Table) (hc hc' : bool) :
  physics.collideWith collisionFriction i j (t, hc) = Some (t', hc') ->
  firstHitBallType (snd t) <> undetermined ->
  firstHitBallType (snd t') = firstHitBallType (snd t).
Proof.
  destruct t as [balls turn]. unfold physics.collideWith. intros H Hd.
  apply bind_Some in H as (a & Ha & H).
  apply bind_Some in H as (b & Hb & H).
  destruct (Ball.isOverlappingBall i j a b).
  - apply bind_Some in H as ([a1 b1] & Hp & H).
    apply bind_Some in H as ([a2 b2] & Hv & H).
    injection H as <- <-. cbn [snd] in *.
    destruct (decide (firstHitBallType turn = undetermined)); [contradiction|reflexivity].
  - injection H as <- <-. reflexivity.
Qed.

Lemma checkCollisions_firstHit (i : nat) (js : list nat) (t t' : physics.Table)
  (hc hc' : bool) :
  physics.checkCollisions collisionFriction i js (t, hc) = Some (t', hc') ->
  firstHitBallType (snd t) <> undetermined ->
  firstHitBallType (snd t') = firstHitBallType (snd t).
Proof.
  revert t hc. induction js as [|j js IH]; intros t hc H Hd.
  - injection H as <- <-. reflexivity.
  - rewrite checkCollisions_cons in H.
    apply bind_Some in H as ([t1 hc1] & Hc & H).
    pose proof (collideWith_firstHit _ _ _ _ _ _ Hc Hd) as E1.
    rewrite <- E1. eapply IH; [eassumption | congruence].
Qed.

Lemma stepLoop_firstHit (n i : nat) (sx sy : R) (t t' : physics.Table) (hc hc' : bool) :
  physics.stepLoop collisionFriction n i sx sy (t, hc) = Some (t', hc') ->
  firstHitBallType (snd t) <> undetermined ->
  firstHitBallType (snd t') = firstHitBallType (snd t).
Proof.
  revert t hc. induction n as [|n IH]; intros t hc H Hd.
  - injection H as <- <-. reflexivity.
  - destruct hc.
    + injection H as <- <-. reflexivity.
    + rewrite stepLoop_S in H. apply bind_Some in H as ([t1 hc1] & Hs & H).
      assert (E1 : firstHitBallType (snd t1) = firstHitBallType (snd t)).
      { destruct t as [balls turn]. unfold physics.subStep in Hs.
        apply bind_Some in Hs as (a & Ha & Hs).
        apply (checkCollisions_firstHit _ _ _ _ _ _ Hs Hd). }
      rewrite <- E1. eapply IH; [eassumption | congruence].
Qed.

(** The pocket test, read backwards. *)
Lemma pocketBall_inv (i : nat) (w w' : World) :
  pocketBall' i w = Some w' ->
  exists ball,
    gameBalls w !! i = Some ball
    /\ gameBalls w'
       = <[i := if isInPocket ball then Ball.setVisible false ball else ball]> (gameBalls w)
    /\ firstHitBallType (turnInfo w') = firstHitBallType (turnInfo w)
    /\ turnPlayerIndex (turnInfo w') = turnPlayerIndex (turnInfo w)
    /\ pocketedBalls (turnInfo w')
       = pocketedBalls (turnInfo w) ++ (if isInPocket ball then [i] else [])
    /\ (isInPocket ball = false -> gamePlayers w' = gamePlayers w)
    /\ (isInPocket ball = true ->
        exists player,
          vectorAt (gamePlayers w) (turnPlayerIndex (turnInfo w)) = Some player
          /\ gamePlayers w'
             = playersAfterPocket (gamePlayers w) (turnPlayerIndex (turnInfo w))
                 (Player.getTargetBallType player) (Ball.getBallType ball)).
Proof.
  intros H. pose proof H as H0. unfold physics.pocketBall in H0.
  apply bind_Some in H0 as (ball & Hb & H0). exists ball. split; [exact Hb|].
  destruct (isInPocket ball) eqn:Hp.
  - apply bind_Some in H0 as (player & Hpl & _). cbn [turnPlayerIndex] in Hpl.
    rewrite (pocketBall_in_pocket isInPocket i w ball player Hb Hp Hpl) in H.
    injection H as <-. cbn [gameBalls gamePlayers turnInfo firstHitBallType
                             turnPlayerIndex pocketedBalls].
    repeat split; try reflexivity; [discriminate|].
    intros _. exists player. split; [exact Hpl | reflexivity].
  - injection H0 as <-. rewrite list_insert_id by exact Hb.
    rewrite app_nil_r. repeat split; try reflexivity. discriminate.
Qed.

(** The step of one ball, read backwards. *)
Lemma stepBall_inv (i : nat) (w w' : World) :
  stepBall' i w = Some w' ->
  exists ball,
    gameBalls w !! i = Some ball
    /\ (w' = w
        \/ Ball.isVisible ball = true
           /\ exists (n : Z) (sx sy : R) (balls1 : list Ball) (turn1 : TurnInformation)
                     (hc : bool) (w1 : World) (ball1 : Ball),
               physics.stepsNeededOf ball = Some n
               /\ (0 < n)%Z
               /\ physics.stepLoop collisionFriction (Z.to_nat n) i sx sy
                    (gameBalls w, turnInfo w, false) = Some (balls1, turn1, hc)
               /\ pocketBall' i (mkWorld balls1 (gamePlayers w) turn1) = Some w1
               /\ gameBalls w1 !! i = Some ball1
               /\ w' = mkWorld
                         (<[i := physics.resolveCircleBoundaryCollision collisionFriction
                                   (Ball.applyFriction rollingFriction stoppingVelocity ball1)
                                   playSurface]> (gameBalls w1))
                         (gamePlayers w1) (turnInfo w1)).
Proof.
  unfold physics.stepBall. intros H.
  apply bind_Some in H as (ball & Hb & H). exists ball. split; [exact Hb|].
  destruct (Ball.isVisible ball) eqn:Hv; cbn [negb] in H;
    [|left; injection H as <-; reflexivity].
  apply bind_Some in H as (n & Hn & H).
  destruct (decide (IZR n > 0)) as [Hpos|Hle];
    [|left; injection H as <-; reflexivity].
  right. split; [reflexivity|].
  apply bind_Some in H as ([sx sy] & Hsz & H).
  apply bind_Some in H as ([[balls1 turn1] hc] & Hloop & H).
  apply bind_Some in H as (w1 & Hpk & H).
  apply bind_Some in H as (ball1 & Hb1 & H).
  injection H as <-.
  exists n, sx, sy, balls1, turn1, hc, w1, ball1.
  split; [exact Hn|]. split; [apply lt_IZR; lra|].
  repeat split; assumption.
Qed.

Lemma sameBall_keptBall (b b' : Ball) : sameBall b b' -> keptBall b b'.
Proof. intros (?&?&Hv&?&?). repeat split; try assumption. congruence. Qed.

Lemma keptBall_trans (a b c : Ball) : keptBall a b -> keptBall b c -> keptBall a c.
Proof.
  intros (?&?&?&?&Hv1) (?&?&?&?&Hv2). repeat split; try congruence. auto.
Qed.

Lemma playersAfterPocket_length (players : list Player) (idx : Z) (target t : BallType) :
  length (playersAfterPocket players idx target t) = length players.
Proof.
  unfold playersAfterPocket. destruct (decide _); [|reflexivity].
  rewrite !length_insert. reflexivity.
Qed.

Lemma playersAfterPocket_determined (players : list Player) (idx : Z)
  (target t : BallType) :
  target <> undetermined -> playersAfterPocket players idx target t = players.
Proof.
  intros Hd. unfold playersAfterPocket.
  destruct (decide _) as [[E _]|_]; [contradiction | reflexivity].
Qed.

Lemma pocketedNow_same (w : World) (i : nat) : ~ pocketedNow w w i.
Proof. intros (b & b' & Hb & Hb' & Hv & Hv'). congruence. Qed.

Lemma tickKept_refl (w : World) : tickKept w w.
Proof.
  split; [|repeat split; auto].
  - apply Forall2_same_length_lookup_2; [reflexivity|].
    intros i x y Hx Hy. rewrite Hx in Hy. injection Hy as <-.
    apply sameBall_keptBall, sameBall_refl.
  - exists []. rewrite app_nil_r. split; [reflexivity|]. split; [constructor|].
    intros i. split; [intros Hi; inversion Hi | intros Hi].
    exfalso. exact (pocketedNow_same w i Hi).
Qed.

Lemma tickKept_trans (w1 w2 w3 : World) :
  tickKept w1 w2 -> tickKept w2 w3 -> tickKept w1 w3.
Proof.
  intros (Hb12 & Hl12 & Hi12 & Hf12 & Hp12 & l1 & Hk1 & Hn1 & He1)
         (Hb23 & Hl23 & Hi23 & Hf23 & Hp23 & l2 & Hk2 & Hn2 & He2).
  split; [|split; [|split; [|split; [|split]]]].
  - eapply Forall2_trans; [|exact Hb12|exact Hb23]. apply keptBall_trans.
  - congruence.
  - congruence.
  - intros Hd. rewrite Hf23; [auto|]. rewrite Hf12; assumption.
  - intros p Hp Hd. specialize (Hp12 p Hp Hd).
    rewrite <- Hp12. apply (Hp23 p); [|exact Hd].
    rewrite Hp12, Hi12. exact Hp.
  - exists (l1 ++ l2). split; [rewrite Hk2, Hk1, app_assoc; reflexivity|].
    split.
    + apply NoDup_app. split; [exact Hn1|]. split; [|exact Hn2].
      intros i Hi1 Hi2. apply He1 in Hi1 as (a & b & _ & Hb & _ & Hvb).
      apply He2 in Hi2 as (b0 & c & Hb0 & _ & Hvb0 & _). congruence.
    + intros i. rewrite elem_of_app, He1, He2. split.
      * intros [(a & b & Ha & Hb & Hva & Hvb)|(b & c & Hb & Hc & Hvb & Hvc)].
        -- destruct (Forall2_lookup_l _ _ _ _ _ Hb23 Hb) as (c & Hc & Hk).
           exists a, c. repeat split; try assumption.
           destruct Hk as (_ & _ & _ & _ & Hv).
           destruct (m_visible c) eqn:E; [|reflexivity].
           specialize (Hv eq_refl). congruence.
        -- destruct (Forall2_lookup_r _ _ _ _ _ Hb12 Hb) as (a & Ha & Hk).
           exists a, c. repeat split; try assumption.
           destruct Hk as (_ & _ & _ & _ & Hv). auto.
      * intros (a & c & Ha & Hc & Hva & Hvc).
        destruct (Forall2_lookup_l _ _ _ _ _ Hb12 Ha) as (b & Hb & _).
        destruct (m_visible b) eqn:E.
        -- right. exists b, c. auto.
        -- left. exists a, b. auto.
Qed.

Lemma stepBall_tickKept (i : nat) (w w' : World) :
  stepBall' i w = Some w' -> tickKept w w'.
Proof.
  intros H. apply stepBall_inv in H as (ball & Hb & [->|(Hvis & H)]);
    [apply tickKept_refl|].
  destruct H as (n & sx & sy & balls1 & turn1 & hc & w1 & ball1
                 & Hn & Hpos & Hloop & Hpk & Hb1 & ->).
  pose proof (stepLoop_kept _ _ _ _ _ _ _ _ _ Hloop) as (Hsame & Hpkt & Hidx).
  cbn [fst snd] in Hsame, Hpkt, Hidx.
  pose proof (stepLoop_firstHit _ _ _ _ _ _ _ _ Hloop) as Hfh. cbn [snd] in Hfh.
  apply pocketBall_inv in Hpk
    as (ballx & Hbx & Hballs & Hfh1 & Hidx1 & Hpk1 & Hout & Hin).
  cbn [gameBalls gamePlayers turnInfo] in *.
  assert (Hi : (i < length balls1)%nat) by (eapply lookup_lt_Some; exact Hbx).
  rewrite Hballs in Hb1. rewrite list_lookup_insert_eq in Hb1 by exact Hi.
  injection Hb1 as <-.
  rewrite Hballs, list_insert_insert_eq.
  set (bx := if isInPocket ballx then Ball.setVisible false ballx else ballx) in *.
  set (fin := physics.resolveCircleBoundaryCollision collisionFriction
                (Ball.applyFriction rollingFriction stoppingVelocity bx) playSurface).
  assert (Hfin : sameBall bx fin).
  { eapply sameBall_trans; [apply applyFriction_sameBall|].
    apply resolveCircleBoundaryCollision_sameBall. }
  destruct (sameBalls_lookup _ _ _ _ Hsame Hb) as (ballx' & Hbx' & Hsx).
  rewrite Hbx in Hbx'. injection Hbx' as <-.
  assert (Hother : forall j x y, j <> i -> gameBalls w !! j = Some x ->
                                 balls1 !! j = Some y -> sameBall x y).
  { intros j x y _ Hx Hy.
    destruct (sameBalls_lookup _ _ _ _ Hsame Hx) as (y' & Hy' & Hs). congruence. }
  assert (Hvfin : m_visible fin = if isInPocket ballx then false else true).
  { destruct Hfin as (_ & _ & -> & _). unfold bx.
    destruct (isInPocket ballx); [reflexivity|].
    destruct Hsx as (_ & _ & -> & _). exact Hvis. }
  assert (Hkfin : keptBall ball fin).
  { destruct Hfin as (E1 & E2 & E3 & E4 & E5). destruct Hsx as (F1 & F2 & F3 & F4 & F5).
    unfold bx in E1, E2, E4, E5.
    destruct (isInPocket ballx); cbn in E1, E2, E4, E5;
      repeat split; try congruence; intros _; exact Hvis. }
  unfold tickKept. cbn [gameBalls gamePlayers turnInfo].
  split; [|split; [|split; [|split; [|split]]]].
  - apply Forall2_same_length_lookup_2.
    + rewrite length_insert. apply sameBalls_length. exact Hsame.
    + intros j x y Hx Hy. destruct (decide (j = i)) as [->|Hne].
      * rewrite list_lookup_insert_eq in Hy by exact Hi. injection Hy as <-.
        rewrite Hb in Hx. injection Hx as <-. exact Hkfin.
      * rewrite list_lookup_insert_ne in Hy by congruence.
        apply sameBall_keptBall. eapply Hother; eassumption.
  - destruct (isInPocket ballx) eqn:Hp.
    + destruct (Hin eq_refl) as (player & _ & ->). apply playersAfterPocket_length.
    + rewrite Hout; reflexivity.
  - congruence.
  - intros Hd. rewrite Hfh1. auto.
  - intros p Hp Hd. destruct (isInPocket ballx) eqn:Hpx.
    + destruct (Hin eq_refl) as (player & Hpl & ->).
      rewrite Hidx, Hp in Hpl. injection Hpl as <-.
      apply playersAfterPocket_determined. exact Hd.
    + apply Hout. reflexivity.
  - exists (if isInPocket ballx then [i] else []).
    split; [rewrite Hpk1, Hpkt; reflexivity|].
    split; [destruct (isInPocket ballx); [apply NoDup_singleton | constructor]|].
    intros j. unfold pocketedNow. cbn [gameBalls]. split.
    + intros Hj. destruct (isInPocket ballx); [|inversion Hj].
      apply list_elem_of_singleton in Hj as ->.
      exists ball, fin. rewrite list_lookup_insert_eq by exact Hi. auto.
    + intros (x & y & Hx & Hy & Hvx & Hvy).
      destruct (decide (j = i)) as [->|Hne].
      * rewrite list_lookup_insert_eq in Hy by exact Hi. injection Hy as <-.
        rewrite Hvfin in Hvy. destruct (isInPocket ballx); [|discriminate].
        apply list_elem_of_singleton. reflexivity.
      * rewrite list_lookup_insert_ne in Hy by congruence.
        destruct (Hother j x y Hne Hx Hy) as (_ & _ & Hv & _). congruence.
Qed.

Lemma stepBalls_tickKept (todo : list nat) (w w' : World) :
  stepBalls' todo w = Some w' -> tickKept w w'.
Proof.
  revert w. induction todo as [|i todo IH]; intros w H.
  - injection H as <-. apply tickKept_refl.
  - change (stepBalls' (i :: todo) w) with (stepBall' i w ≫= stepBalls' todo) in H.
    apply bind_Some in H as (w1 & H1 & H).
    eapply tickKept_trans; [eapply stepBall_tickKept; exact H1 | apply IH; exact H].
Qed.

Lemma stepPhysics_tickKept (w w' : World) : stepPhysics' w = Some w' -> tickKept w w'.
Proof. apply stepBalls_tickKept. Qed.

(** X12: a tick keeps the number of balls and each ball's radius, mass,
    type and number, and never makes an invisible ball visible. *)
Theorem stepPhysics_keeps_balls (w w' : World) :
  stepPhysics' w = Some w' ->
  length (gameBalls w') = length (gameBalls w)
  /\ forall (i : nat) (b : Ball),
       gameBalls w !! i = Some b ->
       exists b',
         gameBalls w' !! i = Some b'
         /\ Ball.getRadius b' = Ball.getRadius b
         /\ Ball.getMass b' = Ball.getMass b
         /\ Ball.getBallType b' = Ball.getBallType b
         /\ Ball.getBallNumber b' = Ball.getBallNumber b
         /\ (Ball.isVisible b = false -> Ball.isVisible b' = false).
Proof.
  intros H. apply stepPhysics_tickKept in H as (Hb & _).
  split; [symmetry; eapply Forall2_length; exact Hb|].
  intros i b Hi. destruct (Forall2_lookup_l _ _ _ _ _ Hb Hi) as (b' & Hi' & Hk).
  exists b'. destruct Hk as (? & ? & ? & ? & Hv).
  repeat split; try assumption.
  unfold Ball.isVisible. intros Hf. destruct (m_visible b') eqn:E; [|reflexivity].
  specialize (Hv eq_refl). congruence.
Qed.


(** X14: a tick only appends to the pocketed balls, and what it appends
    are, each once, exactly the balls that were visible before the tick
    and are invisible after it. *)
Theorem stepPhysics_pocketed_balls (w w' : World) :
  stepPhysics' w = Some w' ->
  exists l : list nat,
    pocketedBalls (turnInfo w') = pocketedBalls (turnInfo w) ++ l
    /\ NoDup l
    /\ forall i : nat, i ∈ l <-> pocketedNow w w' i.
Proof.
  intros H. apply stepPhysics_tickKept in H as (_ & _ & _ & _ & _ & Hl). exact Hl.
Qed.


Lemma stepBall_invisible (i : nat) (w : World) (ball : Ball) :
  gameBalls w !! i = Some ball -> Ball.isVisible ball = false -> stepBall' i w = Some w.
Proof.
  intros Hb Hv. unfold physics.stepBall. rewrite Hb. cbn [mbind option_bind].
  rewrite Hv. reflexivity.
Qed.

Lemma stepsNeededOf_at_rest (ball : Ball) :
  Ball.getVX ball = 0 -> Ball.getVY ball = 0 -> Ball.getRadius ball <> 0 ->
  physics.stepsNeededOf ball = Some 0%Z.
Proof.
  intros Hx Hy Hr. unfold physics.stepsNeededOf. rewrite fdiv_Some by assumption.
  cbn [mbind option_bind]. f_equal. apply Zceil_eq.
  rewrite Hx, Hy, Rabs_R0.
  replace ((0 + 0) / Ball.getRadius ball) with 0 by (field; assumption). lra.
Qed.

(** X16: when every visible ball is at rest (and has a non-zero
    radius), a tick changes nothing at all. *)
Theorem stepPhysics_settled (w : World) :
  (forall b : Ball,
     b ∈ gameBalls w -> Ball.isVisible b = true ->
     Ball.getVX b = 0 /\ Ball.getVY b = 0 /\ Ball.getRadius b <> 0) ->
  stepPhysics' w = Some w.
Proof.
  intros Hrest. unfold physics.stepPhysics.
  assert (G : forall todo : list nat,
            (forall i, i ∈ todo -> (i < length (gameBalls w))%nat) ->
            stepBalls' todo w = Some w).
  { induction todo as [|i todo IH]; intros Hin; [reflexivity|].
    change (stepBalls' (i :: todo) w) with (stepBall' i w ≫= stepBalls' todo).
    assert (Hi : stepBall' i w = Some w).
    { destruct (lookup_lt_is_Some_2 (gameBalls w) i) as [b Hb].
      { apply Hin. left. }
      destruct (Ball.isVisible b) eqn:Hv.
      - destruct (Hrest b (list_elem_of_lookup_2 _ _ _ Hb) Hv) as (Hx & Hy & Hr).
        eapply stepBall_no_steps; [exact Hb | apply stepsNeededOf_at_rest; assumption | lia].
      - eapply stepBall_invisible; eassumption. }
    rewrite Hi. cbn [mbind option_bind]. apply IH.
    intros j Hj. apply Hin. right. exact Hj. }
  apply G. intros i Hi. apply elem_of_seq in Hi. lia.
Qed.

(** A ball alone on the table: every sub-step adds the step vector. *)
Lemma stepLoop_lone (n : nat) (sx sy : R) (b : Ball) (turn : TurnInformation) :
  exists b',
    physics.stepLoop collisionFriction n 0 sx sy ([b], turn, false)
    = Some ([b'], turn, false)
    /\ Ball.getX b' = Ball.getX b + INR n * sx
    /\ Ball.getY b' = Ball.getY b + INR n * sy
    /\ Ball.getVX b' = Ball.getVX b
    /\ Ball.getVY b' = Ball.getVY b.
Proof.
  revert b. induction n as [|n IH]; intros b.
  - exists b. split; [reflexivity|]. cbn [INR]. repeat split; lra.
  - destruct (IH (Ball.addPosition sx sy b)) as (b' & He & Hx & Hy & Hvx & Hvy).
    exists b'. split.
    + rewrite stepLoop_S.
      change (physics.subStep collisionFriction 0 sx sy ([b], turn, false))
        with (Some ([Ball.addPosition sx sy b], turn, false)).
      exact He.
    + rewrite S_INR. rewrite Hx, Hy, Hvx, Hvy.
      unfold Ball.getX, Ball.getY, Ball.getVX, Ball.getVY. cbn.
      repeat split; lra.
Qed.

(** X17: for a ball alone on the table the sub-steps add up to the
    whole velocity: the loop registers no collision, leaves the turn
    record as it was and moves the ball by exactly (vx, vy). *)
Theorem stepLoop_lone_ball_moves_by_velocity
  (b : Ball) (n : Z) (sx sy : R) (turn : TurnInformation) :
  (0 < n)%Z ->
  physics.stepSizeOf b n = Some (sx, sy) ->
  exists b',
    physics.stepLoop collisionFriction (Z.to_nat n) 0 sx sy ([b], turn, false)
    = Some ([b'], turn, false)
    /\ Ball.getX b' = Ball.getX b + Ball.getVX b
    /\ Ball.getY b' = Ball.getY b + Ball.getVY b
    /\ Ball.getVX b' = Ball.getVX b
    /\ Ball.getVY b' = Ball.getVY b.
Proof.
  intros Hn Hs. unfold physics.stepSizeOf in Hs.
  apply bind_Some in Hs as (sx' & Hsx & Hs).
  apply bind_Some in Hs as (sy' & Hsy & Hs).
  injection Hs as <- <-.
  apply fdiv_Some_inv in Hsx as [Hnz ->]. apply fdiv_Some_inv in Hsy as [_ ->].
  destruct (stepLoop_lone (Z.to_nat n) (Ball.getVX b / IZR n) (Ball.getVY b / IZR n)
              b turn) as (b' & He & Hx & Hy & Hvx & Hvy).
  exists b'. split; [exact He|].
  rewrite INR_IZR_INZ, Z2Nat.id in Hx, Hy by lia.
  split; [rewrite Hx; field; exact Hnz|].
  split; [rewrite Hy; field; exact Hnz|]. auto.
Qed.

(** ** The other functions of physics.cpp *)

Lemma collideWith_resolveWith (i j : nat) (balls : list Ball)
  (turn : TurnInformation) (hc : bool) :
  (fun s : physics.Table * bool => (s.1.1, s.2))
    <$> physics.collideWith collisionFriction i j (balls, turn, hc)
  = physics.resolveWith collisionFriction i j (balls, hc).
Proof.
  unfold physics.collideWith, physics.resolveWith.
  destruct (balls !! i) as [a|]; [|reflexivity]. cbn [mbind option_bind].
  destruct (balls !! j) as [b|]; [|reflexivity]. cbn [mbind option_bind].
  destruct (Ball.isOverlappingBall i j a b); [|reflexivity].
  destruct (physics.resolveCircleCollisionPosition a b) as [[a1 b1]|]; [|reflexivity].
  cbn [mbind option_bind].
  destruct (physics.resolveCircleCollisionVelocity collisionFriction a1 b1)
    as [[a2 b2]|]; reflexivity.
Qed.

Lemma checkCollisions_resolveAll (i : nat) (js : list nat) (balls : list Ball)
  (turn : TurnInformation) (hc : bool) :
  (fun s : physics.Table * bool => (s.1.1, s.2))
    <$> physics.checkCollisions collisionFriction i js (balls, turn, hc)
  = physics.resolveAll collisionFriction i js (balls, hc).
Proof.
  revert balls turn hc. induction js as [|j js IH]; intros balls turn hc;
    [reflexivity|].
  rewrite checkCollisions_cons.
  change (physics.resolveAll collisionFriction i (j :: js) (balls, hc))
    with (physics.resolveWith collisionFriction i j (balls, hc)
          ≫= physics.resolveAll collisionFriction i js).
  rewrite <- (collideWith_resolveWith i j balls turn hc).
  destruct (physics.collideWith collisionFriction i j (balls, turn, hc))
    as [[[balls1 turn1] hc1]|]; [|reflexivity].
  cbn [mbind option_bind fmap option_fmap option_map]. apply IH.
Qed.

(** X18: the collision scan inside [stepPhysics] is
    [resolveCircleCollisions] on the same ball and vector: leaving the
    turn record aside, both succeed on the same inputs, with the same
    balls and the same collision flag. *)
Theorem stepPhysics_scan_is_resolveCircleCollisions
  (i : nat) (balls : list Ball) (turn : TurnInformation) :
  (fun s : physics.Table * bool => (s.1.1, s.2))
    <$> physics.checkCollisions collisionFriction i (seq 0 (length balls))
          (balls, turn, false)
  = physics.resolveCircleCollisions collisionFriction i balls.
Proof. apply checkCollisions_resolveAll. Qed.

Lemma resolveWith_flag (i j : nat) (balls balls' : list Ball) (hc hc' : bool) :
  physics.resolveWith collisionFriction i j (balls, hc) = Some (balls', hc') ->
  length balls' = length balls
  /\ (hc = true -> hc' = true)
  /\ (hc' = false -> balls' = balls).
Proof.
  unfold physics.resolveWith. intros H.
  apply bind_Some in H as (a & Ha & H).
  apply bind_Some in H as (b & Hb & H).
  destruct (Ball.isOverlappingBall i j a b).
  - apply bind_Some in H as ([a1 b1] & Hp & H).
    apply bind_Some in H as ([a2 b2] & Hv & H).
    injection H as <- <-. rewrite !length_insert.
    split; [reflexivity|]. split; [reflexivity | discriminate].
  - injection H as <- <-. auto.
Qed.

Lemma resolveAll_flag (i : nat) (js : list nat) (balls balls' : list Ball)
  (hc hc' : bool) :
  physics.resolveAll collisionFriction i js (balls, hc) = Some (balls', hc') ->
  length balls' = length balls
  /\ (hc = true -> hc' = true)
  /\ (hc' = false -> balls' = balls).
Proof.
  revert balls hc. induction js as [|j js IH]; intros balls hc H.
  - injection H as <- <-. auto.
  - change (physics.resolveAll collisionFriction i (j :: js) (balls, hc))
      with (physics.resolveWith collisionFriction i j (balls, hc)
            ≫= physics.resolveAll collisionFriction i js) in H.
    apply bind_Some in H as ([balls1 hc1] & H1 & H).
    apply resolveWith_flag in H1 as (L1 & F1 & U1).
    apply IH in H as (L2 & F2 & U2).
    split; [congruence|]. split; [auto|].
    intros E. specialize (U2 E). subst balls'.
    apply U1. destruct hc1; [|reflexivity]. specialize (F2 eq_refl). congruence.
Qed.

(** X19: [resolveCircleCollisions] keeps the number of balls, and when
    it returns false it has changed no ball. *)
Theorem resolveCircleCollisions_false_unchanged
  (i : nat) (balls balls' : list Ball) (hasCollided : bool) :
  physics.resolveCircleCollisions collisionFriction i balls = Some (balls', hasCollided) ->
  length balls' = length balls
  /\ (hasCollided = false -> balls' = balls).
Proof.
  intros H. apply resolveAll_flag in H as (L & _ & U). auto.
Qed.

(** X20: [areBallsMoving] is true exactly when some ball of the vector
    is both visible and moving; invisible balls do not count. *)
Theorem areBallsMoving_iff (isMoving : Ball -> bool) (balls : list Ball) :
  physics.areBallsMoving isMoving balls = true
  <-> exists b, b ∈ balls /\ Ball.isVisible b = true /\ isMoving b = true.
Proof.
  induction balls as [|b balls IH]; cbn [physics.areBallsMoving].
  - split; [discriminate | intros (b & Hb & _); inversion Hb].
  - destruct (Ball.isVisible b && isMoving b) eqn:E.
    + apply andb_true_iff in E as [Ev Em].
      split; [intros _ | reflexivity]. exists b. split; [left | auto].
    + rewrite IH. split.
      * intros (c & Hc & Hv & Hm). exists c. split; [right; exact Hc | auto].
      * intros (c & Hc & Hv & Hm). apply elem_of_cons in Hc as [->|Hc].
        -- rewrite Hv, Hm in E. discriminate.
        -- exists c. auto.
Qed.

(** X21: with two players, the pocket test inside [stepPhysics] treats
    the ball and the players exactly as [handlePocketing] does; what it
    does besides is to append the ball to the pocketed balls. *)
Theorem pocketBall_is_handlePocketing (i : nat) (w : World) (ball : Ball) :
  gameBalls w !! i = Some ball ->
  length (gamePlayers w) = 2%nat ->
  (fun w' : World => (gameBalls w' !! i, gamePlayers w')) <$> pocketBall' i w
  = (fun r : Ball * list Player => (Some r.1, r.2))
      <$> physics.handlePocketing isInPocket ball (gamePlayers w)
            (turnPlayerIndex (turnInfo w)).
Proof.
  intros Hb Hlen. unfold physics.pocketBall, physics.handlePocketing.
  rewrite Hb. cbn [mbind option_bind turnPlayerIndex].
  assert (Hi : (i < length (gameBalls w))%nat) by (eapply lookup_lt_Some; exact Hb).
  destruct (isInPocket ball); [|cbn; rewrite Hb; reflexivity].
  destruct (vectorAt (gamePlayers w) (turnPlayerIndex (turnInfo w)))
    as [player|] eqn:Hpl; [|reflexivity].
  cbn [mbind option_bind].
  destruct (decide (Player.getTargetBallType player = undetermined));
    [|cbn; rewrite list_lookup_insert_eq by exact Hi; reflexivity].
  destruct (decide (_ \/ _));
    [|cbn; rewrite list_lookup_insert_eq by exact Hi; reflexivity].
  apply vectorAt_Some in Hpl as [Hidx _].
  rewrite length_insert, Hlen.
  change (Z.of_nat 2) with 2%Z.
  rewrite Z.rem_mod_nonneg by lia.
  destruct (vectorAt _ _) as [opponent|]; [|reflexivity].
  cbn. rewrite list_lookup_insert_eq by exact Hi. reflexivity.
Qed.

End Tick.

(** ** Instances of the further properties *)

Lemma leftBall_rightBall_velocity (cf : R) :
  exists a' b', physics.resolveCircleCollisionVelocity cf leftBall rightBall = Some (a', b').
Proof.
  eexists _, _. apply resolveCircleCollisionVelocity_result.
  - exact leftBall_rightBall_apart.
  - cbn. lra.
Qed.

Lemma resolveCircleCollisionVelocity_normal_law_witness :
  exists a' b',
    physics.resolveCircleCollisionVelocity (9 / 10) leftBall rightBall = Some (a', b')
    /\ let d := centerDistance leftBall rightBall in
       let nx := (Ball.getX rightBall - Ball.getX leftBall) / d in
       let ny := (Ball.getY rightBall - Ball.getY leftBall) / d in
       dotProduct nx (Ball.getVX a' - Ball.getVX b') ny (Ball.getVY a' - Ball.getVY b')
       = (1 - 2 * (9 / 10))
         * dotProduct nx (Ball.getVX leftBall - Ball.getVX rightBall)
                      ny (Ball.getVY leftBall - Ball.getVY rightBall).
Proof.
  destruct (leftBall_rightBall_velocity (9 / 10)) as (a' & b' & He).
  exists a', b'. split; [exact He|].
  apply (resolveCircleCollisionVelocity_normal_law (9 / 10) leftBall rightBall a' b').
  - exact leftBall_rightBall_apart.
  - exact He.
Defined.

Lemma resolveCircleCollisionVelocity_energy_witness :
  exists a' b',
    physics.resolveCircleCollisionVelocity (9 / 10) leftBall rightBall = Some (a', b')
    /\ kineticEnergy a' + kineticEnergy b'
       <= kineticEnergy leftBall + kineticEnergy rightBall.
Proof.
  destruct (leftBall_rightBall_velocity (9 / 10)) as (a' & b' & He).
  exists a', b'. split; [exact He|].
  apply (resolveCircleCollisionVelocity_energy (9 / 10) leftBall rightBall a' b').
  - cbn. lra.
  - cbn. lra.
  - lra.
  - exact leftBall_rightBall_apart.
  - exact He.
Defined.

Lemma resolveCircleBoundaryCollision_inside_unchanged_witness :
  physics.resolveCircleBoundaryCollision (9 / 10) fastBall testSurface = fastBall.
Proof.
  apply (resolveCircleBoundaryCollision_inside_unchanged (9 / 10) fastBall testSurface).
  unfold insideRectangle. cbn. repeat split; lra.
Defined.

Lemma movementStep_slows_witness :
  calcPythagoreanHyp (Ball.getVX (Ball.movementStep (1 / 100) (1 / 10) fastBall))
                     (Ball.getVY (Ball.movementStep (1 / 100) (1 / 10) fastBall))
  <= calcPythagoreanHyp (Ball.getVX fastBall) (Ball.getVY fastBall).
Proof.
  destruct (movementStep_slows (1 / 100) (1 / 10) fastBall) as (Hle & _).
  - lra.
  - exact Hle.
Defined.

Lemma update_never_speeds_up_witness :
  let b' := Ball.update (1 / 100) (1 / 10) 1 1 11 11 fastBall in
  Ball.getRadius b' = Ball.getRadius fastBall
  /\ calcPythagoreanHyp (Ball.getVX b') (Ball.getVY b')
     <= calcPythagoreanHyp (Ball.getVX fastBall) (Ball.getVY fastBall).
Proof.
  apply (update_never_speeds_up (1 / 100) (1 / 10) 1 1 11 11 fastBall). lra.
Defined.

Lemma stepsNeeded_positive_iff_moving_witness :
  exists n : Z,
    physics.stepsNeededOf fastBall = Some n
    /\ (0 <= n)%Z
    /\ ((0 < n)%Z <-> Ball.getVX fastBall <> 0 \/ Ball.getVY fastBall <> 0).
Proof.
  apply (stepsNeeded_positive_iff_moving fastBall). cbn. lra.
Defined.

(** The tick of the world whose only ball rolls into the corner
    pocket. *)
Lemma rollingWorld_tick :
  exists w',
    physics.stepPhysics 1 (1 / 100) (1 / 10) testSurface cornerPocket
      (mkWorld [rollingBall] testPlayers testTurn) = Some w'.
Proof.
  unfold physics.stepPhysics. cbn [gameBalls length seq physics.stepBalls].
  erewrite (stepBall_steps 1 (1 / 100) (1 / 10) testSurface cornerPocket 0
              (mkWorld [rollingBall] testPlayers testTurn) _ rollingBall _ 1
              [Ball.addPosition (- 1 / 1) (0 / 1) rollingBall] testTurn false).
  - eexists. reflexivity.
  - reflexivity.
  - reflexivity.
  - exact rollingBall_stepsNeeded.
  - lia.
  - reflexivity.
  - apply (pocketBall_in_pocket cornerPocket 0 _
             (Ball.addPosition (- 1 / 1) (0 / 1) rollingBall) (mkPlayer undetermined)).
    + reflexivity.
    + unfold cornerPocket. apply bool_decide_eq_true_2. cbn. lra.
    + reflexivity.
  - reflexivity.
Qed.

Lemma stepPhysics_keeps_balls_witness :
  exists w',
    physics.stepPhysics 1 (1 / 100) (1 / 10) testSurface cornerPocket
      (mkWorld [rollingBall] testPlayers testTurn) = Some w'
    /\ length (gameBalls w') = 1%nat.
Proof.
  destruct rollingWorld_tick as (w' & He). exists w'. split; [exact He|].
  destruct (stepPhysics_keeps_balls 1 (1 / 100) (1 / 10) testSurface cornerPocket
              _ w' He) as (Hlen & _).
  exact Hlen.
Defined.


Lemma stepPhysics_pocketed_balls_witness :
  exists w' l,
    physics.stepPhysics 1 (1 / 100) (1 / 10) testSurface cornerPocket
      (mkWorld [rollingBall] testPlayers testTurn) = Some w'
    /\ pocketedBalls (turnInfo w') = [] ++ l
    /\ NoDup l.
Proof.
  destruct rollingWorld_tick as (w' & He).
  destruct (stepPhysics_pocketed_balls 1 (1 / 100) (1 / 10) testSurface cornerPocket
              _ w' He) as (l & Hl & Hn & _).
  exists w', l. split; [exact He|]. split; [exact Hl | exact Hn].
Defined.


Lemma stepPhysics_settled_witness :
  physics.stepPhysics 1 (1 / 100) (1 / 10) testSurface cornerPocket
    (mkWorld [restingBall; struckBall] testPlayers testTurn)
  = Some (mkWorld [restingBall; struckBall] testPlayers testTurn).
Proof.
  apply (stepPhysics_settled 1 (1 / 100) (1 / 10) testSurface cornerPocket).
  intros b Hb _. cbn [gameBalls] in Hb.
  apply elem_of_cons in Hb as [->|Hb];
    [|apply list_elem_of_singleton in Hb as ->];
    cbn; repeat split; lra.
Defined.

Lemma stepLoop_lone_ball_moves_by_velocity_witness :
  exists b',
    physics.stepLoop 1 1 0 (-1 / 1) (0 / 1) ([rollingBall], testTurn, false)
    = Some ([b'], testTurn, false)
    /\ Ball.getX b' = 2 + -1.
Proof.
  destruct (stepLoop_lone_ball_moves_by_velocity 1 rollingBall 1 (-1 / 1) (0 / 1) testTurn)
    as (b' & He & Hx & _).
  - lia.
  - unfold physics.stepSizeOf. rewrite !fdiv_Some by lra. reflexivity.
  - exists b'. split; [exact He | exact Hx].
Defined.

Lemma resolveWith_apart (cf : R) (i j : nat) (balls : list Ball) (hc : bool)
  (a b : Ball) :
  balls !! i = Some a -> balls !! j = Some b ->
  Ball.isOverlappingBall i j a b = false ->
  physics.resolveWith cf i j (balls, hc) = Some (balls, hc).
Proof.
  intros Ha Hb Hov. unfold physics.resolveWith.
  rewrite Ha. cbn [mbind option_bind]. rewrite Hb. cbn [mbind option_bind].
  rewrite Hov. reflexivity.
Qed.

Lemma resolveAll_cons (cf : R) (i j : nat) (js : list nat) (s : list Ball * bool) :
  physics.resolveAll cf i (j :: js) s
  = physics.resolveWith cf i j s ≫= physics.resolveAll cf i js.
Proof. reflexivity. Qed.

(** The striker against itself, the struck ball three units away and a
    third ball six units away: three targets scanned, two overlap tests
    computed, none succeeds. *)
Lemma strikerBall_scan_apart :
  physics.resolveCircleCollisions 1 0 [strikerBall; struckBall; awayBall]
  = Some ([strikerBall; struckBall; awayBall], false).
Proof.
  unfold physics.resolveCircleCollisions. cbn [length seq].
  rewrite resolveAll_cons.
  rewrite (resolveWith_apart 1 0 0 _ false strikerBall strikerBall);
    [|reflexivity | reflexivity | reflexivity].
  cbn [mbind option_bind]. rewrite resolveAll_cons.
  rewrite (resolveWith_apart 1 0 1 _ false strikerBall struckBall);
    [|reflexivity | reflexivity |].
  2: { unfold Ball.isOverlappingBall. cbn. apply bool_decide_eq_false_2. lra. }
  cbn [mbind option_bind]. rewrite resolveAll_cons.
  rewrite (resolveWith_apart 1 0 2 _ false strikerBall awayBall);
    [|reflexivity | reflexivity |].
  2: { unfold Ball.isOverlappingBall. cbn. apply bool_decide_eq_false_2. lra. }
  reflexivity.
Qed.

Lemma resolveCircleCollisions_false_unchanged_witness :
  physics.resolveCircleCollisions 1 0 [strikerBall; struckBall; awayBall]
  = Some ([strikerBall; struckBall; awayBall], false)
  /\ length [strikerBall; struckBall; awayBall] = 3%nat
  /\ (false = false ->
      [strikerBall; struckBall; awayBall] = [strikerBall; struckBall; awayBall]).
Proof.
  split; [exact strikerBall_scan_apart|].
  apply (resolveCircleCollisions_false_unchanged 1 0
           [strikerBall; struckBall; awayBall] [strikerBall; struckBall; awayBall] false).
  exact strikerBall_scan_apart.
Defined.

Lemma pocketBall_is_handlePocketing_witness :
  (fun w' : World => (gameBalls w' !! 0%nat, gamePlayers w'))
    <$> physics.pocketBall cornerPocket 0 (mkWorld [restingBall] testPlayers testTurn)
  = (fun r : Ball * list Player => (Some r.1, r.2))
      <$> physics.handlePocketing cornerPocket restingBall testPlayers 0.
Proof.
  apply (pocketBall_is_handlePocketing cornerPocket 0
           (mkWorld [restingBall] testPlayers testTurn) restingBall).
  - reflexivity.
  - reflexivity.
Defined.



(** * The code on binary64 numbers *)

(** Each comparison below is one the code itself makes, or a
    subtraction of two doubles: rounding to nearest is monotone and
    returns a representable result as it is, so a rounded difference
    that is below a double, or differs from one, shows the same of the
    exact difference. *)




(** The scenario of the specification evaluates on binary64 numbers as
    stated: the ball at (0.5, 5) ends at x = 1 exactly, with a positive
    x velocity (restitution 0.9). *)
Lemma resolveCircleBoundaryCollision_binary64_scenario :
  let cf := B64.restitution in
  let b' := B64.resolveCircleBoundaryCollision cf B64.atWall B64.surface in
  PrimFloat.eqb (B64.getX b') PrimFloat.one = true
  /\ PrimFloat.ltb PrimFloat.zero (B64.getVX b') = true.
Proof. vm_compute. repeat split. Qed.
